(** * Chunk reader and multi-size slice pool of azure-storage-azcopy (package common)

    A shallow embedding of [common/fileChunkReader.go] and
    [common/multiSizeSlicePool.go].  Go's fixed-width integers are integers
    of [Z] with the wrap-around written out, a panic is an explicit
    outcome, the shared byte counter and the log of positioned reads are
    threaded as explicit state.  Go's [int] is taken to be 64 bits wide. *)

From Stdlib Require Import ZArith Lia String Strings.Byte FunctionalExtensionality.
From stdpp Require Import numbers list.

Local Open Scope Z_scope.

(** ** Outcomes: a Go call either returns or panics *)

Inductive outcome (A : Type) : Type :=
| Returns (a : A)
| Panics (msg : string).
Arguments Returns {A} a.
Arguments Panics {A} msg.

Definition returned {A} (o : outcome A) : Prop :=
  match o with Returns _ => True | Panics _ => False end.

(** ** Machine integers *)

Module GoInt.

(** Two's complement wrap-around of a signed integer of [w] bits. *)
Definition wrap (w : Z) (z : Z) : Z := (z + 2 ^ (w - 1)) mod 2 ^ w - 2 ^ (w - 1).

Definition int64 (z : Z) : Z := wrap 64 z.
Definition uint32 (z : Z) : Z := z mod 2 ^ 32.

Definition add64 (a b : Z) : Z := int64 (a + b).
Definition sub64 (a b : Z) : Z := int64 (a - b).
Definition neg64 (a : Z) : Z := int64 (- a).
Definition shl64 (a n : Z) : Z := int64 (Z.shiftl a n).

Definition minInt64 : Z := - 2 ^ 63.
Definition maxInt64 : Z := 2 ^ 63 - 1.

Definition is_int64 (z : Z) : Prop := minInt64 <= z <= maxInt64.
Definition is_uint32 (z : Z) : Prop := 0 <= z < 2 ^ 32.

End GoInt.
Import GoInt.

(** Go's builtin [len] on a byte sequence. *)
Definition len {A} (l : list A) : Z := Z.of_nat (length l).

(** ** math/bits *)

Module bits.

(** Number of bits needed to write a positive number. *)
Fixpoint Len_pos (p : positive) : Z :=
  match p with
  | xH => 1
  | xO q | xI q => 1 + Len_pos q
  end.

Fixpoint OnesCount_pos (p : positive) : Z :=
  match p with
  | xH => 1
  | xO q => OnesCount_pos q
  | xI q => 1 + OnesCount_pos q
  end.

Definition Len32 (x : Z) : Z :=
  match x with Zpos p => Len_pos p | _ => 0 end.

(** [bits.LeadingZeros32]: 32 minus the bit length. *)
Definition LeadingZeros32 (x : Z) : Z := 32 - Len32 x.

(** [bits.OnesCount32]: population count. *)
Definition OnesCount32 (x : Z) : Z :=
  match x with Zpos p => OnesCount_pos p | _ => 0 end.

End bits.

(** ** The slice pool *)

Module SlicePool.

(** A Go byte slice that starts at the beginning of its backing array:
    the array (whose size is the capacity) and the current length. *)
Record slice : Type := mkSlice {
  array : list byte;
  sl_len : Z
}.

Definition cap (s : slice) : Z := len (array s).

(** [make([]byte, n, c)]; the allocation itself is taken to succeed. *)
Definition make (n c : Z) : outcome slice :=
  if (n <? 0) || (c <? n) then Panics "makeslice: len or cap out of range"
  else Returns (mkSlice (replicate (Z.to_nat c) x00) n).

(** [s[0:n]] *)
Definition reslice (s : slice) (n : Z) : outcome slice :=
  if (n <? 0) || (cap s <? n) then Panics "slice bounds out of range"
  else Returns (mkSlice (array s) n).

(** [simpleSlicePool]: a buffered channel of slices, used without ever
    blocking.  [c] is the queue, oldest first. *)
Record simpleSlicePool : Type := mkSimple {
  c : list slice;
  maxCapacity : Z
}.

Definition newSimpleSlicePool (maxCapacity : Z) : simpleSlicePool :=
  mkSimple [] maxCapacity.

(** [Get]: the [select] takes the oldest item, or falls to [default]
    (nil) when the channel is empty. *)
Definition Get (p : simpleSlicePool) : option slice * simpleSlicePool :=
  match c p with
  | existingItem :: rest => (Some existingItem, mkSimple rest (maxCapacity p))
  | [] => (None, p)
  end.

(** [Put]: the [select] sends when the channel has room, and otherwise
    throws the slice away. *)
Definition Put (p : simpleSlicePool) (b : slice) : simpleSlicePool :=
  if len (c p) <? maxCapacity p then mkSimple (c p ++ [b]) (maxCapacity p)
  else p.

Record multiSizeSlicePool : Type := mkMulti {
  poolsBySize : list simpleSlicePool
}.

Definition getSlotInfo (exactSliceLength : Z) : outcome (Z * Z) :=
  if exactSliceLength <=? 0 then
    Panics "exact slice length must be greater than zero"
  else
    let rawSlotIndex := 31 - bits.LeadingZeros32 exactSliceLength in
    let isExactPowerOfTwo := bits.OnesCount32 exactSliceLength =? 1 in
    let slotIndex :=
      if isExactPowerOfTwo then rawSlotIndex else rawSlotIndex + 1 in
    let maxCapInSlot := shl64 1 slotIndex in
    Returns (slotIndex, maxCapInSlot).

Definition NewMultiSizeSlicePool (maxSliceLength : Z) : outcome multiSizeSlicePool :=
  match getSlotInfo maxSliceLength with
  | Panics m => Panics m
  | Returns (maxSlotIndex, _) =>
      Returns (mkMulti (map (fun _ => newSimpleSlicePool 1000)
                            (seq 0 (Z.to_nat (maxSlotIndex + 1)))))
  end.

(** [mp.poolsBySize[slotIndex]]: an index outside the slice panics. *)
Definition index (pools : list simpleSlicePool) (i : Z) : outcome simpleSlicePool :=
  if i <? 0 then Panics "index out of range"
  else match pools !! Z.to_nat i with
       | Some pool => Returns pool
       | None => Panics "index out of range"
       end.

(** The pools are reached through pointers: what [Get] and [Put] do to
    one of them is seen through [poolsBySize]. *)
Definition store (mp : multiSizeSlicePool) (i : Z) (pool : simpleSlicePool)
  : multiSizeSlicePool :=
  mkMulti (<[Z.to_nat i := pool]> (poolsBySize mp)).

Definition RentSlice (mp : multiSizeSlicePool) (desiredSize : Z)
  : outcome (slice * multiSizeSlicePool) :=
  match getSlotInfo desiredSize with
  | Panics m => Panics m
  | Returns (slotIndex, maxCapInSlot) =>
      match index (poolsBySize mp) slotIndex with
      | Panics m => Panics m
      | Returns pool =>
          match Get pool with
          | (Some typedSlice, pool') =>
              match reslice typedSlice desiredSize with
              | Panics m => Panics m
              | Returns typedSlice' =>
                  Returns (typedSlice', store mp slotIndex pool')
              end
          | (None, _) =>
              match make desiredSize maxCapInSlot with
              | Panics m => Panics m
              | Returns fresh => Returns (fresh, mp)
              end
          end
      end
  end.

Definition ReturnSlice (mp : multiSizeSlicePool) (s : slice)
  : outcome multiSizeSlicePool :=
  match getSlotInfo (uint32 (cap s)) with
  | Panics m => Panics m
  | Returns (slotIndex, _) =>
      match index (poolsBySize mp) slotIndex with
      | Panics m => Panics m
      | Returns pool => Returns (store mp slotIndex (Put pool s))
      end
  end.

(** The bucket index as the specification words it: the base-2 logarithm
    rounded down, plus one unless the size is an exact power of two. *)
Definition spec_slotIndex (desiredSize : Z) : Z :=
  if desiredSize =? 2 ^ Z.log2 desiredSize then Z.log2 desiredSize
  else Z.log2 desiredSize + 1.

(** Every buffer queued in bucket [i] has the capacity of its class. *)
Definition bucket_ok (i : nat) (pool : simpleSlicePool) : Prop :=
  Forall (fun s => cap s = 2 ^ Z.of_nat i) (c pool).

Definition pool_ok (mp : multiSizeSlicePool) : Prop :=
  forall i pool, poolsBySize mp !! i = Some pool -> bucket_ok i pool.

(** No bucket holds more buffers than its channel has room for. *)
Definition pool_bounded (mp : multiSizeSlicePool) : Prop :=
  forall i pool, poolsBySize mp !! i = Some pool -> len (c pool) <= maxCapacity pool.

End SlicePool.

(** ** The chunk reader *)

Module ChunkReader.

Inductive error : Type :=
| io_EOF
| errors_New (text : string)
| os_PathError (errno : Z).

(** The two errors the reader makes itself. *)
Definition errShortRead : error :=
  errors_New "bytes read not equal to expected length. Chunk reader must be constructed so that it won't read past end of file".
Definition errSeekBeforeBeginning : error :=
  errors_New "cannot seek to before beginning".

Definition io_SeekStart : Z := 0.
Definition io_SeekCurrent : Z := 1.
Definition io_SeekEnd : Z := 2.

(** Modelled from the spec: the type [SharedCounter] is declared outside the
    files at hand.  The specification gives it as a signed 64-bit
    accumulator with the single operation [Add(delta)]. *)
Record SharedCounter : Type := mkCounter { value : Z }.

Definition Add (counter : SharedCounter) (delta : Z) : SharedCounter :=
  mkCounter (add64 (value counter) delta).

(** What one call of [os.File.ReadAt] answers: the bytes it delivers
    and its error.  Nothing here forces an error on a short delivery. *)
Record readAtAnswer : Type := mkAnswer {
  delivered : list byte;
  failure : option error
}.

(** The open file as the readers see it: the answer to the [k]-th
    positioned read, of [n] bytes at offset [off]. *)
Definition File : Type := nat -> Z -> Z -> readAtAnswer.

(** What the reader shares with the rest of the program: the counter behind
    [prefetchedByteTracker] and the positioned reads made so far on [file]
    (buffer length and offset, latest first). *)
Record World : Type := mkWorld {
  prefetchedByteTracker : SharedCounter;
  readAtCalls : list (Z * Z)
}.

(** [file.ReadAt(b, off)]: at most [len(b)] bytes overwrite the front of [b]. *)
Definition ReadAt (file : File) (w : World) (b : list byte) (off : Z)
  : list byte * Z * option error * World :=
  let answer := file (length (readAtCalls w)) (len b) off in
  let got := take (length b) (delivered answer) in
  (got ++ drop (length got) b, len got, failure answer,
   mkWorld (prefetchedByteTracker w) ((len b, off) :: readAtCalls w)).

(** [make([]byte, n)]; the allocation itself is taken to succeed. *)
Definition make (n : Z) : outcome (list byte) :=
  if n <? 0 then Panics "makeslice: len out of range"
  else Returns (replicate (Z.to_nat n) x00).

(** [a[i:]]; a nil slice behaves as the empty one. *)
Definition slice_from (a : option (list byte)) (i : Z) : outcome (list byte) :=
  let l := match a with Some l => l | None => [] end in
  if (i <? 0) || (len l <? i) then Panics "slice bounds out of range"
  else Returns (drop (Z.to_nat i) l).

(** [copy(dst, src)]: the new content of [dst] and the number of bytes copied. *)
Definition copy (dst src : list byte) : list byte * Z :=
  let n := Z.min (len dst) (len src) in
  (take (Z.to_nat n) src ++ drop (Z.to_nat n) dst, n).

Record simpleFileChunkReader : Type := mkReader {
  offsetInFile : Z;
  length : Z;
  positionInChunk : Z;
  buffer : option (list byte)
}.

Definition State : Type := simpleFileChunkReader * World.

Definition NewSimpleFileChunkReader (offset length : Z) : outcome simpleFileChunkReader :=
  if length <=? 0 then Panics "length must be greater than zero"
  else Returns (mkReader offset length 0 None).

Definition Prefetch (file : File) (cr : simpleFileChunkReader) (w : World)
  : outcome (option error * State) :=
  match buffer cr with
  | Some _ => Returns (None, (cr, w))
  | None =>
      match make (length cr) with
      | Panics m => Panics m
      | Returns fresh =>
          let '(filled, bytesRead, err, w1) := ReadAt file w fresh (offsetInFile cr) in
          let cr1 := mkReader (offsetInFile cr) (length cr) (positionInChunk cr) (Some filled) in
          match err with
          | Some e => Returns (Some e, (cr1, w1))
          | None =>
              if negb (bytesRead =? length cr) then
                Returns (Some errShortRead, (cr1, w1))
              else
                Returns (None,
                         (cr1, mkWorld (Add (prefetchedByteTracker w1) bytesRead)
                                       (readAtCalls w1)))
          end
      end
  end.

Definition seekTarget (cr : simpleFileChunkReader) (offset whence : Z) : Z :=
  let newPosition := positionInChunk cr in
  if whence =? io_SeekStart then offset
  else if whence =? io_SeekCurrent then add64 newPosition offset
  else if whence =? io_SeekEnd then sub64 (length cr) offset
  else newPosition.

Definition Seek (cr : simpleFileChunkReader) (offset whence : Z)
  : Z * option error * simpleFileChunkReader :=
  let newPosition := seekTarget cr offset whence in
  if newPosition <? 0 then
    (0, Some errSeekBeforeBeginning, cr)
  else
    let newPosition := if newPosition >? length cr then length cr else newPosition in
    let cr' := mkReader (offsetInFile cr) (length cr) newPosition (buffer cr) in
    (positionInChunk cr', None, cr').

Definition discardBuffer (cr : simpleFileChunkReader) (w : World) : State :=
  match buffer cr with
  | None => (cr, w)
  | Some _ =>
      (mkReader (offsetInFile cr) (length cr) (positionInChunk cr) None,
       mkWorld (Add (prefetchedByteTracker w) (neg64 (length cr))) (readAtCalls w))
  end.

(** [Read] answers the byte count, the error and the new content of [p]. *)
Definition Read (file : File) (cr : simpleFileChunkReader) (w : World) (p : list byte)
  : outcome (Z * option error * list byte * State) :=
  if positionInChunk cr >=? length cr then
    Returns (0, Some io_EOF, p, (cr, w))
  else
    match Prefetch file cr w with
    | Panics m => Panics m
    | Returns (Some err, s1) => Returns (0, Some err, p, s1)
    | Returns (None, (cr1, w1)) =>
        match slice_from (buffer cr1) (positionInChunk cr1) with
        | Panics m => Panics m
        | Returns src =>
            let '(p', bytesCopied) := copy p src in
            let cr2 := mkReader (offsetInFile cr1) (length cr1)
                                (add64 (positionInChunk cr1) bytesCopied) (buffer cr1) in
            let isEof := positionInChunk cr2 >=? length cr2 in
            if isEof then
              Returns (bytesCopied, Some io_EOF, p', discardBuffer cr2 w1)
            else
              Returns (bytesCopied, None, p', (cr2, w1))
        end
    end.

Definition Close (cr : simpleFileChunkReader) (w : World) : option error * State :=
  (None, discardBuffer cr w).

(** *** Runs of calls *)

Inductive call : Type :=
| CallPrefetch
| CallSeek (offset whence : Z)
| CallRead (p : list byte)
| CallClose.

Definition step (file : File) (k : call) (s : State) : outcome State :=
  let '(cr, w) := s in
  match k with
  | CallPrefetch =>
      match Prefetch file cr w with
      | Panics m => Panics m
      | Returns (_, s') => Returns s'
      end
  | CallSeek offset whence => Returns (snd (Seek cr offset whence), w)
  | CallRead p =>
      match Read file cr w p with
      | Panics m => Panics m
      | Returns (_, s') => Returns s'
      end
  | CallClose => Returns (snd (Close cr w))
  end.

(** The states a reader goes through: made by the constructor from
    [int64] arguments, driven by any calls with any arguments, while the
    rest of the program does what it likes to the shared counter and file. *)
Inductive reachable (file : File) : State -> Prop :=
| reach_new offset length w cr :
    is_int64 offset -> is_int64 length ->
    NewSimpleFileChunkReader offset length = Returns cr ->
    reachable file (cr, w)
| reach_step k s s' :
    reachable file s -> step file k s = Returns s' -> reachable file s'
| reach_others cr w w' :
    reachable file (cr, w) -> reachable file (cr, w').

Definition position_in_range (cr : simpleFileChunkReader) : Prop :=
  0 <= positionInChunk cr <= length cr.

(** What holds of every reader in use: the range fits [int64], the cursor
    is inside it, and a buffer that is held spans the whole range. *)
Definition reader_ok (cr : simpleFileChunkReader) : Prop :=
  0 < length cr <= maxInt64 /\
  position_in_range cr /\
  forall b, buffer cr = Some b -> len b = length cr.

(** One materialize-then-discard cycle: a prefetch, then the discard,
    either by [Close] or by rewinding and reading into [p] up to the end
    of the range. *)
Inductive discard_by : Type :=
| ByClose
| ByReadToEnd (p : list byte).

Definition cycle (file : File) (d : discard_by) (s : State) : outcome State :=
  let '(cr, w) := s in
  match Prefetch file cr w with
  | Panics m => Panics m
  | Returns (Some _, s1) => Returns s1
  | Returns (None, (cr1, w1)) =>
      match d with
      | ByClose => Returns (snd (Close cr1 w1))
      | ByReadToEnd p =>
          match Read file (snd (Seek cr1 0 io_SeekStart)) w1 p with
          | Panics m => Panics m
          | Returns (_, s2) => Returns s2
          end
      end
  end.

Fixpoint cycles (file : File) (ds : list discard_by) (s : State) : outcome State :=
  match ds with
  | [] => Returns s
  | d :: ds' =>
      match cycle file d s with
      | Panics m => Panics m
      | Returns s' => cycles file ds' s'
      end
  end.

(** The answer of the file to the next positioned read of the reader's
    range, the number of bytes that read puts into a buffer of the range's
    size, and the buffer after it. *)
Definition next_answer (file : File) (cr : simpleFileChunkReader) (w : World)
  : readAtAnswer :=
  file (Datatypes.length (readAtCalls w)) (length cr) (offsetInFile cr).

Definition next_bytesRead (file : File) (cr : simpleFileChunkReader) (w : World) : Z :=
  Z.min (length cr) (len (delivered (next_answer file cr w))).

Definition next_filled (file : File) (cr : simpleFileChunkReader) (w : World)
  : list byte :=
  let got := take (Z.to_nat (length cr)) (delivered (next_answer file cr w)) in
  got ++ replicate (Z.to_nat (length cr) - Datatypes.length got)%nat x00.

(** The reader after a call that changed its cursor or its buffer. *)
Definition with_position (cr : simpleFileChunkReader) (pos : Z) : simpleFileChunkReader :=
  mkReader (offsetInFile cr) (length cr) pos (buffer cr).
Definition with_buffer (cr : simpleFileChunkReader) (b : option (list byte))
  : simpleFileChunkReader :=
  mkReader (offsetInFile cr) (length cr) (positionInChunk cr) b.

(** The world after the counter received [Add(delta)], and after one more
    positioned read of the reader's range. *)
Definition counted (w : World) (delta : Z) : World :=
  mkWorld (Add (prefetchedByteTracker w) delta) (readAtCalls w).
Definition logged (cr : simpleFileChunkReader) (w : World) : World :=
  mkWorld (prefetchedByteTracker w) ((length cr, offsetInFile cr) :: readAtCalls w).

(** The file answers every positioned read of the reader's range in full. *)
Definition reads_in_full (file : File) (cr : simpleFileChunkReader) : Prop :=
  forall k, failure (file k (length cr) (offsetInFile cr)) = None /\
            length cr <= len (delivered (file k (length cr) (offsetInFile cr))).

(** *** Files and worlds to run the reader on *)

(** A regular file of fixed content: a positioned read delivers what the
    content has from [off] on, and reports [io.EOF] when that is less than
    asked for. *)
Definition fileOf (content : list byte) : File :=
  fun _ n off =>
    let data := take (Z.to_nat n) (drop (Z.to_nat off) content) in
    mkAnswer data (if len data <? n then Some io_EOF else None).

(** A handle whose positioned reads deliver two bytes and report no error. *)
Definition twoBytesNoError : File :=
  fun _ _ _ => mkAnswer [x01; x02] None.

Definition quietWorld : World := mkWorld (mkCounter 0) [].

(** *** Whole runs, and the bytes of the range *)

(** A list of calls made one after the other; a panic ends the run. *)
Fixpoint run (file : File) (ks : list call) (s : State) : outcome State :=
  match ks with
  | [] => Returns s
  | k :: ks' =>
      match step file k s with
      | Panics m => Panics m
      | Returns s' => run file ks' s'
      end
  end.

(** The bytes of [content] that the reader's range covers, and the
    condition that the range lies inside [content]. *)
Definition rangeOf (content : list byte) (cr : simpleFileChunkReader) : list byte :=
  take (Z.to_nat (length cr)) (drop (Z.to_nat (offsetInFile cr)) content).

Definition range_in_file (content : list byte) (cr : simpleFileChunkReader) : Prop :=
  0 <= offsetInFile cr /\ offsetInFile cr + length cr <= len content.

End ChunkReader.

(** ** The S3 service traverser (package cmd) *)

Module S3ServiceTraverser.

Section Collaborators.

(** What the traverser works with and is declared elsewhere: the state of
    everything outside (the S3 service, the counters, what the processor
    collects), the errors, the stored objects with the assignment to their
    [containerName] field, the filters, the traverser of one bucket with
    its constructor [newS3Traverser] (reached through the URL of the
    bucket, which the bucket's name determines) and its [traverse],
    [s3Client.ListBuckets] (of the buckets only [Name] is used) and
    [filepath.Match]. *)
Variable World : Type.
Variable error : Type.
Variable storedObject : Type.
Variable withContainerName : storedObject -> string -> storedObject.
Variable objectFilter : Type.
Variable bucketTraverser : Type.

Definition objectProcessor : Type := storedObject -> World -> option error * World.

Variable ListBuckets : World -> (list string + error) * World.
Variable Match : string -> string -> bool * option error.
Variable newS3Traverser : string -> World -> (bucketTraverser + error) * World.
Variable traverseBucket :
  bucketTraverser -> objectProcessor -> list objectFilter -> World -> option error * World.

(** What the head of the loop body decides for one bucket. *)
Inductive verdict : Type :=
| Take
| Skip
| Fail (err : error).

Definition checkPattern (bucketPattern name : string) : verdict :=
  if negb (String.eqb bucketPattern "") then
    match Match bucketPattern name with
    | (_, Some err) => Fail err
    | (ok, None) => if negb ok then Skip else Take
    end
  else Take.

Definition middlemanProcessor (processor : objectProcessor) (name : string)
  : objectProcessor :=
  fun object => processor (withContainerName object name).

(** The [for ... range bucketInfo] loop. *)
Fixpoint traverseBuckets (bucketPattern : string) (processor : objectProcessor)
         (filters : list objectFilter) (bucketInfo : list string) (w : World)
  : option error * World :=
  match bucketInfo with
  | [] => (None, w)
  | name :: rest =>
      match checkPattern bucketPattern name with
      | Fail err => (Some err, w)
      | Skip => traverseBuckets bucketPattern processor filters rest w
      | Take =>
          match newS3Traverser name w with
          | (inr err, w1) => (Some err, w1)
          | (inl bucket, w1) =>
              match traverseBucket bucket (middlemanProcessor processor name) filters w1 with
              | (Some err, w2) => (Some err, w2)
              | (None, w2) => traverseBuckets bucketPattern processor filters rest w2
              end
          end
      end
  end.

Definition traverse (bucketPattern : string) (processor : objectProcessor)
           (filters : list objectFilter) (w : World) : option error * World :=
  match ListBuckets w with
  | (inl bucketInfo, w1) => traverseBuckets bucketPattern processor filters bucketInfo w1
  | (inr err, w1) => (Some err, w1)
  end.

End Collaborators.

(** *** A small service to run the traverser on

    The world is the list of objects processed so far, latest first; an
    object is a pair of a container name and a key; every bucket holds the
    keys "a" and "b", except the bucket "locked", whose traverser cannot be
    made; a pattern matches the name equal to it, and the pattern "["
    is malformed. *)
Definition demoObject : Type := string * string.

Definition demoWithContainerName (o : demoObject) (name : string) : demoObject :=
  (name, snd o).

Definition demoMatch (pattern name : string) : bool * option string :=
  if String.eqb pattern "[" then (false, Some "syntax error in pattern"%string)
  else (String.eqb pattern name, None).

Definition demoNewS3Traverser (name : string) (w : list demoObject)
  : (list demoObject + string) * list demoObject :=
  if String.eqb name "locked" then (inr "access denied"%string, w)
  else (inl [(EmptyString, "a"%string); (EmptyString, "b"%string)], w).

Fixpoint demoTraverseBucket (objects : list demoObject)
         (processor : demoObject -> list demoObject -> option string * list demoObject)
         (filters : list unit) (w : list demoObject)
  : option string * list demoObject :=
  match objects with
  | [] => (None, w)
  | o :: rest =>
      match processor o w with
      | (Some err, w1) => (Some err, w1)
      | (None, w1) => demoTraverseBucket rest processor filters w1
      end
  end.

Definition demoProcessor (o : demoObject) (w : list demoObject)
  : option string * list demoObject :=
  (None, o :: w).

(** A processor that refuses an object without container name. *)
Definition demoStrictProcessor (o : demoObject) (w : list demoObject)
  : option string * list demoObject :=
  if String.eqb (fst o) "" then (Some "no container"%string, w) else (None, o :: w).

End S3ServiceTraverser.

(** * Properties *)

(** ** Machine integers *)

Section GoIntFacts.

Lemma int64_small (z : Z) : is_int64 z -> int64 z = z.
Proof.
  unfold is_int64, minInt64, maxInt64, int64, wrap. intros Hz.
  change (2 ^ (64 - 1)) with 9223372036854775808 in *.
  change (2 ^ 63) with 9223372036854775808 in *.
  change (2 ^ 64) with 18446744073709551616.
  rewrite Z.mod_small; lia.
Qed.

Lemma int64_is_int64 (z : Z) : is_int64 (int64 z).
Proof.
  unfold is_int64, minInt64, maxInt64, int64, wrap.
  change (2 ^ (64 - 1)) with 9223372036854775808.
  change (2 ^ 63) with 9223372036854775808.
  change (2 ^ 64) with 18446744073709551616.
  pose proof (Z.mod_pos_bound (z + 9223372036854775808) 18446744073709551616).
  lia.
Qed.

Lemma int64_add_int64_l (a b : Z) : int64 (int64 a + b) = int64 (a + b).
Proof.
  unfold int64, wrap. f_equal.
  replace ((a + 2 ^ (64 - 1)) mod 2 ^ 64 - 2 ^ (64 - 1) + b + 2 ^ (64 - 1))
    with ((a + 2 ^ (64 - 1)) mod 2 ^ 64 + b) by lia.
  rewrite Zplus_mod_idemp_l. f_equal. lia.
Qed.

(** Adding then taking away the same amount leaves a counter value as it was. *)
Lemma add64_neg64_cancel (t l : Z) :
  is_int64 t -> 0 < l <= maxInt64 -> add64 (add64 t l) (neg64 l) = t.
Proof.
  intros Ht Hl. unfold add64, neg64.
  rewrite (int64_small (- l)) by (unfold is_int64, minInt64, maxInt64 in *; lia).
  rewrite int64_add_int64_l.
  replace (t + l + - l) with t by lia.
  now apply int64_small.
Qed.

Lemma shl64_one (k : Z) : 0 <= k <= 62 -> shl64 1 k = 2 ^ k.
Proof.
  intros Hk. unfold shl64. rewrite Z.shiftl_1_l.
  apply int64_small. unfold is_int64, minInt64, maxInt64.
  assert (0 < 2 ^ k) by (apply Z.pow_pos_nonneg; lia).
  assert (2 ^ k <= 2 ^ 62) by (apply Z.pow_le_mono_r; lia).
  change (2 ^ 62) with 4611686018427387904 in *.
  change (2 ^ 63) with 9223372036854775808. lia.
Qed.

End GoIntFacts.

(** ** math/bits *)

Section BitsFacts.

Lemma Len_pos_log2 (p : positive) : bits.Len_pos p = Z.log2 (Zpos p) + 1.
Proof.
  induction p as [q IH | q IH |]; cbn [bits.Len_pos].
  - rewrite Pos2Z.inj_xI, Z.log2_succ_double by lia. lia.
  - rewrite Pos2Z.inj_xO, Z.log2_double by lia. lia.
  - reflexivity.
Qed.

Lemma OnesCount_pos_positive (p : positive) : 1 <= bits.OnesCount_pos p.
Proof. induction p; cbn [bits.OnesCount_pos]; lia. Qed.

(** One bit set: exactly the powers of two. *)
Lemma OnesCount_pos_one (p : positive) :
  bits.OnesCount_pos p = 1 <-> Zpos p = 2 ^ Z.log2 (Zpos p).
Proof.
  induction p as [q IH | q IH |]; cbn [bits.OnesCount_pos].
  - pose proof (OnesCount_pos_positive q).
    rewrite Pos2Z.inj_xI, Z.log2_succ_double, Z.pow_succ_r
      by (try apply Z.log2_nonneg; lia).
    split; lia.
  - rewrite Pos2Z.inj_xO, Z.log2_double, Z.pow_succ_r
      by (try apply Z.log2_nonneg; lia).
    rewrite IH. split; lia.
  - split; reflexivity.
Qed.

Lemma rawSlotIndex_log2 (x : Z) : 0 < x -> 31 - bits.LeadingZeros32 x = Z.log2 x.
Proof.
  intros Hx. destruct x as [| p | p]; try lia.
  unfold bits.LeadingZeros32, bits.Len32. rewrite Len_pos_log2. lia.
Qed.

Lemma isExactPowerOfTwo_spec (x : Z) :
  0 < x -> (bits.OnesCount32 x =? 1) = (x =? 2 ^ Z.log2 x).
Proof.
  intros Hx. destruct x as [| p | p]; try lia.
  unfold bits.OnesCount32.
  destruct (Z.eqb_spec (bits.OnesCount_pos p) 1) as [H1 | H1];
    destruct (Z.eqb_spec (Zpos p) (2 ^ Z.log2 (Zpos p))) as [H2 | H2];
    try reflexivity; exfalso.
  - apply H2. now apply OnesCount_pos_one.
  - apply H1. now apply OnesCount_pos_one.
Qed.

End BitsFacts.

(** ** The slice pool *)

Section SlicePoolFacts.

Import SlicePool.

Lemma spec_slotIndex_bounds (n : Z) :
  0 < n < 2 ^ 32 -> 0 <= spec_slotIndex n <= 32.
Proof.
  intros Hn. unfold spec_slotIndex.
  pose proof (Z.log2_nonneg n).
  assert (Z.log2 n < 32) by (apply Z.log2_lt_pow2; lia).
  destruct (n =? 2 ^ Z.log2 n); lia.
Qed.

(** The bucket index is the base-2 logarithm rounded up. *)
Lemma spec_slotIndex_log2_up (n : Z) : 0 < n -> spec_slotIndex n = Z.log2_up n.
Proof.
  intros Hn. unfold spec_slotIndex.
  destruct (Z.eqb_spec n (2 ^ Z.log2 n)) as [E | E].
  - rewrite E at 2. rewrite Z.log2_up_pow2; [reflexivity | apply Z.log2_nonneg].
  - pose proof (Z.log2_spec n Hn) as [Hlo Hhi].
    pose proof (Z.log2_nonneg n).
    symmetry. apply Z.log2_up_unique; [lia |].
    replace (Z.pred (Z.log2 n + 1)) with (Z.log2 n) by lia.
    replace (Z.log2 n + 1) with (Z.succ (Z.log2 n)) by lia. lia.
Qed.

Lemma getSlotInfo_spec (n : Z) :
  0 < n < 2 ^ 32 ->
  getSlotInfo n = Returns (spec_slotIndex n, 2 ^ spec_slotIndex n).
Proof.
  intros Hn. pose proof (spec_slotIndex_bounds n Hn) as Hb.
  unfold getSlotInfo.
  destruct (Z.leb_spec n 0) as [? | _]; [lia |].
  rewrite rawSlotIndex_log2, isExactPowerOfTwo_spec by lia.
  fold (spec_slotIndex n). rewrite shl64_one by lia. reflexivity.
Qed.

End SlicePoolFacts.

Section SlicePoolClaims.

Import SlicePool.

Lemma pow2_log2_iff (n : Z) :
  0 < n -> n = 2 ^ Z.log2 n <-> exists k, 0 <= k /\ n = 2 ^ k.
Proof.
  intros Hn. split.
  - intros E. exists (Z.log2 n). split; [apply Z.log2_nonneg | exact E].
  - intros [k [Hk E]]. rewrite E at 2. now rewrite Z.log2_pow2.
Qed.

Lemma size_le_maxCap (n : Z) : 0 < n -> n <= 2 ^ spec_slotIndex n.
Proof.
  intros Hn. rewrite spec_slotIndex_log2_up by lia.
  destruct (Z.eq_dec n 1) as [-> | Hne]; [reflexivity |].
  apply (Z.log2_up_spec n). lia.
Qed.

Lemma spec_slotIndex_mono (a b : Z) :
  0 < a <= b -> spec_slotIndex a <= spec_slotIndex b.
Proof.
  intros H. rewrite !spec_slotIndex_log2_up by lia.
  apply Z.log2_up_le_mono. lia.
Qed.

Lemma make_spec (n cp : Z) :
  0 <= n <= cp -> make n cp = Returns (mkSlice (replicate (Z.to_nat cp) x00) n).
Proof.
  intros H. unfold make.
  destruct (Z.ltb_spec n 0); [lia |]. destruct (Z.ltb_spec cp n); [lia |].
  reflexivity.
Qed.

Lemma cap_fresh (n cp : Z) :
  0 <= cp -> cap (mkSlice (replicate (Z.to_nat cp) x00) n) = cp.
Proof. intros H. unfold cap, len. cbn. rewrite length_replicate. lia. Qed.

Lemma index_spec (pools : list simpleSlicePool) (i : Z) (pool : simpleSlicePool) :
  0 <= i -> pools !! Z.to_nat i = Some pool -> index pools i = Returns pool.
Proof.
  intros Hi Hl. unfold index. destruct (Z.ltb_spec i 0); [lia |]. now rewrite Hl.
Qed.

Lemma index_beyond (pools : list simpleSlicePool) (i : Z) :
  len pools <= i -> index pools i = Panics "index out of range".
Proof.
  intros Hi. unfold index. destruct (Z.ltb_spec i 0); [reflexivity |].
  rewrite (proj2 (lookup_ge_None pools (Z.to_nat i))); [reflexivity |].
  unfold len in Hi. lia.
Qed.

(** A pool made by the constructor has one empty bucket for every index up
    to the one of [maxSliceLength]. *)
Lemma NewMultiSizeSlicePool_spec (maxSliceLength : Z) :
  0 < maxSliceLength < 2 ^ 32 ->
  exists mp, NewMultiSizeSlicePool maxSliceLength = Returns mp /\
             len (poolsBySize mp) = spec_slotIndex maxSliceLength + 1 /\
             pool_ok mp.
Proof.
  intros H. pose proof (spec_slotIndex_bounds _ H) as Hb.
  unfold NewMultiSizeSlicePool. rewrite getSlotInfo_spec by exact H.
  eexists. split; [reflexivity |]. split.
  - unfold len. cbn. rewrite length_map, length_seq. lia.
  - intros i pool Hl. cbn in Hl. rewrite list_lookup_fmap in Hl.
    destruct (seq 0 (Z.to_nat (spec_slotIndex maxSliceLength + 1)) !! i);
      cbn in Hl; [| discriminate].
    injection Hl as <-. constructor.
Qed.

(** A size beyond the largest bucket of the pool makes [RentSlice] panic. *)
Lemma RentSlice_no_bucket (mp : multiSizeSlicePool) (desiredSize : Z) :
  0 < desiredSize < 2 ^ 32 ->
  len (poolsBySize mp) <= spec_slotIndex desiredSize ->
  RentSlice mp desiredSize = Panics "index out of range".
Proof.
  intros Hn Hl. unfold RentSlice.
  rewrite getSlotInfo_spec by exact Hn. now rewrite index_beyond.
Qed.

(** Putting a bucket in order back in its place keeps the pool in order. *)
Lemma store_ok (mp : multiSizeSlicePool) (i : Z) (pool : simpleSlicePool) :
  pool_ok mp -> bucket_ok (Z.to_nat i) pool -> pool_ok (store mp i pool).
Proof.
  intros Hok Hb j q Hl. unfold store in Hl. cbn in Hl.
  apply list_lookup_insert_Some in Hl as [[<- [<- _]] | [_ Hl]];
    [exact Hb | exact (Hok j q Hl)].
Qed.

Lemma store_len (mp : multiSizeSlicePool) (i : Z) (pool : simpleSlicePool) :
  len (poolsBySize (store mp i pool)) = len (poolsBySize mp).
Proof. unfold store, len. cbn. now rewrite length_insert. Qed.

Lemma Put_ok (i : nat) (pool : simpleSlicePool) (s : slice) :
  bucket_ok i pool -> cap s = 2 ^ Z.of_nat i -> bucket_ok i (Put pool s).
Proof.
  intros Hb Hs. unfold Put.
  destruct (len (c pool) <? maxCapacity pool); [| exact Hb].
  unfold bucket_ok. cbn. apply Forall_app. split; [exact Hb |].
  constructor; [exact Hs | constructor].
Qed.

(** Returning a buffer whose capacity is the one of its bucket, as every
    rented buffer has, keeps the pool in order. *)
Lemma ReturnSlice_ok (mp mp' : multiSizeSlicePool) (s : slice) :
  pool_ok mp -> 0 < cap s < 2 ^ 32 ->
  cap s = 2 ^ spec_slotIndex (cap s) ->
  ReturnSlice mp s = Returns mp' ->
  pool_ok mp' /\ len (poolsBySize mp') = len (poolsBySize mp).
Proof.
  intros Hok Hc Hp. pose proof (spec_slotIndex_bounds _ Hc) as Hb.
  unfold ReturnSlice, uint32. rewrite Z.mod_small by lia.
  rewrite getSlotInfo_spec by exact Hc.
  unfold index. destruct (Z.ltb_spec (spec_slotIndex (cap s)) 0); [lia |].
  destruct (poolsBySize mp !! Z.to_nat (spec_slotIndex (cap s))) as [pool |] eqn:E;
    [| discriminate].
  intros [= <-]. split; [| apply store_len].
  apply store_ok; [exact Hok |]. apply Put_ok; [exact (Hok _ _ E) |].
  rewrite Hp at 1. f_equal. lia.
Qed.

(** C4: for every desiredSize > 0 (a uint32), the bucket index computed by
    getSlotInfo is floor(log2(desiredSize)), plus one unless desiredSize is
    an exact power of two, and maxCapInSlot is 2^slotIndex; sizes 1, 2, 3,
    256 and 257 go to buckets 0, 1, 2, 8 and 9 of capacities 1, 2, 4, 256
    and 512. *)
Theorem getSlotInfo_bucket_index (desiredSize : Z) :
  0 < desiredSize < 2 ^ 32 ->
  (exists slotIndex,
     getSlotInfo desiredSize = Returns (slotIndex, 2 ^ slotIndex) /\
     slotIndex = spec_slotIndex desiredSize /\
     ((exists k, 0 <= k /\ desiredSize = 2 ^ k) -> slotIndex = Z.log2 desiredSize) /\
     (~ (exists k, 0 <= k /\ desiredSize = 2 ^ k) -> slotIndex = Z.log2 desiredSize + 1)) /\
  getSlotInfo 1 = Returns (0, 1) /\
  getSlotInfo 2 = Returns (1, 2) /\
  getSlotInfo 3 = Returns (2, 4) /\
  getSlotInfo 256 = Returns (8, 256) /\
  getSlotInfo 257 = Returns (9, 512).
Proof.
  intros Hn. split; [| repeat split; reflexivity].
  exists (spec_slotIndex desiredSize).
  split; [now apply getSlotInfo_spec |]. split; [reflexivity |].
  unfold spec_slotIndex.
  destruct (Z.eqb_spec desiredSize (2 ^ Z.log2 desiredSize)) as [E | E]; split;
    intros Hp; try reflexivity; exfalso.
  - apply Hp. apply pow2_log2_iff; [lia | exact E].
  - apply E. apply pow2_log2_iff; [lia | exact Hp].
Qed.

Lemma getSlotInfo_bucket_index_witness :
  0 < 100 < 2 ^ 32 /\
  exists slotIndex,
    getSlotInfo 100 = Returns (slotIndex, 2 ^ slotIndex) /\
    slotIndex = spec_slotIndex 100 /\
    ((exists k, 0 <= k /\ 100 = 2 ^ k) -> slotIndex = Z.log2 100) /\
    (~ (exists k, 0 <= k /\ 100 = 2 ^ k) -> slotIndex = Z.log2 100 + 1).
Proof.
  assert (H : 0 < 100 < 2 ^ 32) by (split; reflexivity).
  split; [exact H | exact (proj1 (getSlotInfo_bucket_index 100 H))].
Defined.

(** C3, as the code has it: for every desiredSize > 0 (a uint32) whose
    bucket exists in the pool, RentSlice on a pool whose buckets hold
    buffers of their capacity class returns a slice of length exactly
    desiredSize and capacity 2^slotIndex, and when the bucket is empty the
    slice is a fresh one and the pool is left as it was. *)
Theorem RentSlice_within_buckets (mp : multiSizeSlicePool) (desiredSize : Z) :
  0 < desiredSize < 2 ^ 32 ->
  spec_slotIndex desiredSize < len (poolsBySize mp) ->
  pool_ok mp ->
  exists s mp',
    RentSlice mp desiredSize = Returns (s, mp') /\
    sl_len s = desiredSize /\
    cap s = 2 ^ spec_slotIndex desiredSize /\
    (forall pool,
        poolsBySize mp !! Z.to_nat (spec_slotIndex desiredSize) = Some pool ->
        c pool = [] ->
        s = mkSlice (replicate (Z.to_nat (2 ^ spec_slotIndex desiredSize)) x00) desiredSize /\
        mp' = mp) /\
    pool_ok mp' /\
    len (poolsBySize mp') = len (poolsBySize mp).
Proof.
  intros Hn Hlen Hok.
  pose proof (spec_slotIndex_bounds _ Hn) as Hb.
  pose proof (size_le_maxCap desiredSize (proj1 Hn)) as Hfit.
  set (slot := spec_slotIndex desiredSize) in *.
  destruct (lookup_lt_is_Some_2 (poolsBySize mp) (Z.to_nat slot)) as [pool Hpool].
  { unfold len in Hlen. lia. }
  unfold RentSlice. rewrite getSlotInfo_spec by exact Hn. fold slot.
  rewrite (index_spec _ _ pool) by (lia || exact Hpool).
  unfold Get. destruct (c pool) as [| typedSlice rest] eqn:Hc.
  - rewrite make_spec by lia. eexists _, _. split; [reflexivity |].
    split; [reflexivity |]. split.
    + apply cap_fresh. apply Z.pow_nonneg. lia.
    + split; [intros pool0 _ _; split; reflexivity |].
      split; [exact Hok | reflexivity].
  - assert (Hcap : cap typedSlice = 2 ^ slot).
    { specialize (Hok _ _ Hpool). unfold bucket_ok in Hok. rewrite Hc in Hok.
      inversion Hok as [| ? ? Hhd _]; subst. rewrite Hhd. f_equal. lia. }
    unfold reslice. rewrite Hcap.
    destruct (Z.ltb_spec desiredSize 0); [lia |].
    destruct (Z.ltb_spec (2 ^ slot) desiredSize); [lia |].
    cbn. eexists _, _. split; [reflexivity |].
    split; [reflexivity |]. split.
    + exact Hcap.
    + split; [| split; [| apply store_len]].
      * intros pool0 Hpool0 Hc0. rewrite Hpool in Hpool0.
        injection Hpool0 as <-. rewrite Hc in Hc0. discriminate.
      * apply store_ok; [exact Hok |].
        specialize (Hok _ _ Hpool). unfold bucket_ok in *. rewrite Hc in Hok.
        cbn. now inversion Hok.
Qed.

Lemma RentSlice_within_buckets_witness :
  exists s mp',
    RentSlice (mkMulti (replicate 3 (newSimpleSlicePool 1000))) 3 = Returns (s, mp') /\
    sl_len s = 3 /\ cap s = 2 ^ spec_slotIndex 3.
Proof.
  destruct (RentSlice_within_buckets (mkMulti (replicate 3 (newSimpleSlicePool 1000))) 3)
    as [s [mp' [H1 [H2 [H3 _]]]]].
  - split; reflexivity.
  - reflexivity.
  - intros i pool Hl.
    destruct i as [| [| [| i]]]; cbn in Hl; try discriminate;
      injection Hl as <-; constructor.
  - exists s, mp'. repeat split; assumption.
Defined.

(** C3 fails as stated: a pool made for slices up to 4 bytes has buckets 0
    to 2, and renting 5 bytes indexes bucket 3. *)
Lemma RentSlice_beyond_max_panics :
  match NewMultiSizeSlicePool 4 with
  | Returns mp => RentSlice mp 5 = Panics "index out of range"
  | Panics _ => False
  end.
Proof. vm_compute. reflexivity. Qed.

End SlicePoolClaims.

(** ** The chunk reader *)

Section ChunkReaderFacts.

Import ChunkReader.

Variable file : File.

Lemma len_replicate (n : Z) (x : byte) : 0 <= n -> len (replicate (Z.to_nat n) x) = n.
Proof. intros H. unfold len. rewrite length_replicate. lia. Qed.

Lemma len_next_filled (cr : simpleFileChunkReader) (w : World) :
  0 <= length cr -> len (next_filled file cr w) = length cr.
Proof.
  intros H. unfold next_filled, len.
  rewrite length_app, length_replicate, length_take. lia.
Qed.

(** The positioned read of [Prefetch], into the fresh buffer. *)
Lemma ReadAt_fresh (cr : simpleFileChunkReader) (w : World) :
  0 <= length cr ->
  ReadAt file w (replicate (Z.to_nat (length cr)) x00) (offsetInFile cr) =
  (next_filled file cr w, next_bytesRead file cr w,
   failure (next_answer file cr w), logged cr w).
Proof.
  intros H. unfold ReadAt, next_filled, next_bytesRead, next_answer, logged.
  rewrite len_replicate by exact H.
  rewrite length_replicate, drop_replicate.
  repeat f_equal. unfold len. rewrite length_take. lia.
Qed.

Lemma Prefetch_held (cr : simpleFileChunkReader) (w : World) (b : list byte) :
  buffer cr = Some b -> Prefetch file cr w = Returns (None, (cr, w)).
Proof. intros H. unfold Prefetch. now rewrite H. Qed.

Lemma Prefetch_unmaterialized (cr : simpleFileChunkReader) (w : World) :
  buffer cr = None -> 0 <= length cr ->
  Prefetch file cr w =
  Returns
    (let cr1 := with_buffer cr (Some (next_filled file cr w)) in
     match failure (next_answer file cr w) with
     | Some e => (Some e, (cr1, logged cr w))
     | None =>
         if next_bytesRead file cr w =? length cr
         then (None, (cr1, counted (logged cr w) (length cr)))
         else (Some errShortRead, (cr1, logged cr w))
     end).
Proof.
  intros Hb Hl. unfold Prefetch. rewrite Hb. unfold make.
  destruct (Z.ltb_spec (length cr) 0); [lia |].
  rewrite ReadAt_fresh by exact Hl. cbn zeta.
  destruct (failure (next_answer file cr w)); [reflexivity |].
  destruct (Z.eqb_spec (next_bytesRead file cr w) (length cr)) as [-> | _];
    reflexivity.
Qed.

(** Whatever [Prefetch] answers, from a reader in order, the reader stays
    in order, keeps its range and its cursor, and holds a buffer. *)
Lemma Prefetch_returns (cr : simpleFileChunkReader) (w : World) :
  reader_ok cr ->
  exists err cr1 w1,
    Prefetch file cr w = Returns (err, (cr1, w1)) /\
    reader_ok cr1 /\
    (exists b, buffer cr1 = Some b) /\
    length cr1 = length cr /\ offsetInFile cr1 = offsetInFile cr /\
    positionInChunk cr1 = positionInChunk cr.
Proof.
  intros [Hl [Hp Hb]].
  destruct (buffer cr) as [b |] eqn:E.
  - exists None, cr, w. rewrite (Prefetch_held cr w b E).
    split; [reflexivity |]. split.
    + repeat split; try apply Hl; try apply Hp. now rewrite E.
    + split; [now exists b | repeat split].
  - rewrite Prefetch_unmaterialized by (assumption || lia). cbn zeta.
    assert (Hok : reader_ok (with_buffer cr (Some (next_filled file cr w)))).
    { repeat split; try apply Hl; try apply Hp.
      cbn. intros b [= <-]. apply len_next_filled. lia. }
    destruct (failure (next_answer file cr w)) as [e |];
      [| destruct (next_bytesRead file cr w =? length cr)];
      eexists _, _, _; (split; [reflexivity |]);
      (split; [exact Hok |]); (split; [eexists; reflexivity |]);
      repeat split.
Qed.

Lemma discardBuffer_held (cr : simpleFileChunkReader) (w : World) (b : list byte) :
  buffer cr = Some b -> 0 < length cr <= maxInt64 ->
  discardBuffer cr w = (with_buffer cr None, counted w (- length cr)).
Proof.
  intros Hb Hl. unfold discardBuffer. rewrite Hb. unfold counted, neg64.
  rewrite int64_small; [reflexivity |].
  unfold is_int64, minInt64, maxInt64 in *. lia.
Qed.

Lemma discardBuffer_none (cr : simpleFileChunkReader) (w : World) :
  buffer cr = None -> discardBuffer cr w = (cr, w).
Proof. intros Hb. unfold discardBuffer. now rewrite Hb. Qed.

Lemma discardBuffer_ok (cr : simpleFileChunkReader) (w : World) :
  reader_ok cr -> reader_ok (fst (discardBuffer cr w)).
Proof.
  intros [Hl [Hp Hb]]. unfold discardBuffer.
  destruct (buffer cr) eqn:E; cbn; repeat split; try apply Hl; try apply Hp.
  - cbn. discriminate.
  - intros b0 Hb0. rewrite E in Hb0. discriminate.
Qed.

(** The counter after [Add(length)] then [Add(-length)]. *)
Lemma counted_cancel (w : World) (l : Z) :
  is_int64 (value (prefetchedByteTracker w)) -> 0 < l <= maxInt64 ->
  counted (counted w l) (- l) = w.
Proof.
  intros Hv Hl. destruct w as [[v] calls]. unfold counted, Add. cbn in *.
  f_equal. f_equal.
  pose proof (add64_neg64_cancel v l Hv Hl) as H.
  unfold neg64 in H. rewrite (int64_small (- l)) in H; [exact H |].
  unfold is_int64, minInt64, maxInt64 in *. lia.
Qed.

Lemma geb_false (a b : Z) : a < b -> (a >=? b) = false.
Proof. intros H. rewrite Z.geb_leb. apply Z.leb_gt. exact H. Qed.

Lemma geb_true (a b : Z) : b <= a -> (a >=? b) = true.
Proof. intros H. rewrite Z.geb_leb. apply Z.leb_le. exact H. Qed.

(** [Read] before the end of the range, once [Prefetch] has answered
    without error: what is copied, where the cursor goes, and what
    happens when it reaches the end. *)
Lemma Read_spec (cr : simpleFileChunkReader) (w : World) (p : list byte)
      (cr1 : simpleFileChunkReader) (w1 : World) :
  reader_ok cr -> positionInChunk cr < length cr ->
  Prefetch file cr w = Returns (None, (cr1, w1)) ->
  exists b,
    buffer cr1 = Some b /\ len b = length cr /\
    let n := Z.min (len p) (length cr - positionInChunk cr) in
    let p' := take (Z.to_nat n) (drop (Z.to_nat (positionInChunk cr)) b)
              ++ drop (Z.to_nat n) p in
    let cr2 := with_position cr1 (positionInChunk cr + n) in
    Read file cr w p =
    Returns (if positionInChunk cr + n <? length cr
             then (n, None, p', (cr2, w1))
             else (n, Some io_EOF, p',
                   (with_buffer cr2 None, counted w1 (- length cr)))).
Proof.
  intros Hok Hpos HP.
  destruct (Prefetch_returns cr w Hok)
    as [err [cr1' [w1' [HP' [Hok1 [[b Hb] [HL [_ Hp1]]]]]]]].
  rewrite HP in HP'. injection HP' as <- <- <-.
  destruct Hok1 as [Hl1 [Hr1 Hb1]]. pose proof (Hb1 b Hb) as Hlen.
  destruct Hok as [Hl [Hr _]]. unfold position_in_range in *.
  assert (Hp0 : 0 <= len p) by (unfold len; lia).
  exists b. split; [exact Hb |]. split; [lia |]. cbn zeta.
  unfold Read. rewrite geb_false by exact Hpos. rewrite HP.
  unfold slice_from. rewrite Hb. cbv zeta.
  destruct (Z.ltb_spec (positionInChunk cr1) 0); [lia |].
  destruct (Z.ltb_spec (len b) (positionInChunk cr1)); [lia |].
  cbn [orb]. unfold copy.
  assert (Hsrc : len (drop (Z.to_nat (positionInChunk cr1)) b)
                 = length cr - positionInChunk cr).
  { unfold len in *. rewrite length_drop. lia. }
  rewrite Hsrc, Hp1.
  set (n := Z.min (len p) (length cr - positionInChunk cr)).
  assert (Hn : 0 <= n <= length cr - positionInChunk cr) by (unfold n; lia).
  unfold add64. rewrite int64_small
    by (unfold is_int64, minInt64, maxInt64 in *; lia).
  cbn [positionInChunk length]. rewrite HL.
  destruct (Z.ltb_spec (positionInChunk cr + n) (length cr)).
  - rewrite geb_false by lia.
    unfold with_position. now rewrite HL, Hb.
  - rewrite geb_true by lia.
    erewrite discardBuffer_held; [| reflexivity | cbn; lia].
    unfold with_position, with_buffer. cbn. now rewrite HL.
Qed.

Lemma Seek_ok (cr : simpleFileChunkReader) (offset whence : Z) :
  reader_ok cr -> reader_ok (snd (Seek cr offset whence)).
Proof.
  intros [Hl [Hp Hb]]. unfold Seek.
  destruct (Z.ltb_spec (seekTarget cr offset whence) 0);
    [repeat split; try apply Hl; try apply Hp; exact Hb |].
  destruct (Z.gtb_spec (seekTarget cr offset whence) (length cr));
    repeat split; cbn; try apply Hl; try lia; exact Hb.
Qed.

Lemma with_position_ok (cr : simpleFileChunkReader) (pos : Z) :
  reader_ok cr -> 0 <= pos <= length cr -> reader_ok (with_position cr pos).
Proof.
  intros [Hl [Hp Hb]] Hpos. repeat split; cbn; try apply Hl; try lia; exact Hb.
Qed.

Lemma with_buffer_None_ok (cr : simpleFileChunkReader) :
  reader_ok cr -> reader_ok (with_buffer cr None).
Proof.
  intros [Hl [Hp Hb]]. repeat split; cbn; try apply Hl; try apply Hp.
  cbn. discriminate.
Qed.

Lemma Read_returns (cr : simpleFileChunkReader) (w : World) (p : list byte) :
  reader_ok cr ->
  exists r s', Read file cr w p = Returns (r, s') /\ reader_ok (fst s').
Proof.
  intros Hok.
  destruct (Z.lt_ge_cases (positionInChunk cr) (length cr)) as [Hlt | Hge].
  - destruct (Prefetch_returns cr w Hok)
      as [err [cr1 [w1 [HP [Hok1 [_ [HL [_ Hp1]]]]]]]].
    destruct err as [e |].
    + unfold Read. rewrite geb_false by exact Hlt. rewrite HP.
      eexists _, _. split; [reflexivity | exact Hok1].
    + destruct (Read_spec cr w p cr1 w1 Hok Hlt HP) as [b [_ [_ HR]]].
      cbn zeta in HR. rewrite HR.
      destruct (Z.ltb_spec
                  (positionInChunk cr + Z.min (len p) (length cr - positionInChunk cr))
                  (length cr));
        eexists _, _; (split; [reflexivity |]); cbn [fst].
      * apply with_position_ok; [exact Hok1 |].
        destruct Hok as [_ [Hp _]]. unfold position_in_range in Hp.
        unfold len. lia.
      * apply with_buffer_None_ok. apply with_position_ok; [exact Hok1 |].
        destruct Hok as [_ [Hp _]]. unfold position_in_range in Hp.
        unfold len. lia.
  - unfold Read. rewrite geb_true by exact Hge.
    eexists _, _. split; [reflexivity | exact Hok].
Qed.

(** No call panics on a reader in order, and every call leaves it in order. *)
Lemma step_ok (k : call) (cr : simpleFileChunkReader) (w : World) :
  reader_ok cr ->
  exists s', step file k (cr, w) = Returns s' /\ reader_ok (fst s').
Proof.
  intros Hok. destruct k as [| offset whence | p |]; cbn [step].
  - destruct (Prefetch_returns cr w Hok) as [err [cr1 [w1 [HP [Hok1 _]]]]].
    rewrite HP. eexists. split; [reflexivity | exact Hok1].
  - eexists. split; [reflexivity |]. now apply Seek_ok.
  - destruct (Read_returns cr w p Hok) as [[[n err] p'] [s' [HR Hok1]]].
    rewrite HR. eexists. split; [reflexivity | exact Hok1].
  - eexists. split; [reflexivity |]. now apply discardBuffer_ok.
Qed.

Lemma NewSimpleFileChunkReader_ok (offset l : Z) (cr : simpleFileChunkReader) :
  is_int64 l -> NewSimpleFileChunkReader offset l = Returns cr -> reader_ok cr.
Proof.
  unfold NewSimpleFileChunkReader, is_int64. intros Hl.
  destruct (Z.leb_spec l 0); [discriminate |]. intros [= <-].
  repeat split; cbn; try lia. discriminate.
Qed.

Lemma reachable_ok (s : State) : reachable file s -> reader_ok (fst s).
Proof.
  induction 1 as [offset l w cr Ho Hl HN | k [cr w] s' _ IH Hs | cr w w' _ IH].
  - exact (NewSimpleFileChunkReader_ok offset l cr Hl HN).
  - destruct (step_ok k cr w IH) as [s'' [Hs' Hok]].
    rewrite Hs in Hs'. now injection Hs' as <-.
  - exact IH.
Qed.

(** [Prefetch] on a file that answers in full. *)
Lemma Prefetch_in_full (cr : simpleFileChunkReader) (w : World) :
  reader_ok cr -> buffer cr = None -> reads_in_full file cr ->
  Prefetch file cr w =
  Returns (None, (with_buffer cr (Some (next_filled file cr w)),
                  counted (logged cr w) (length cr))).
Proof.
  intros [Hl _] Hb Hfull.
  rewrite Prefetch_unmaterialized by (assumption || lia). cbn zeta.
  destruct (Hfull (Datatypes.length (readAtCalls w))) as [Hf Hd].
  fold (next_answer file cr w) in Hf, Hd. rewrite Hf.
  unfold next_bytesRead. rewrite Z.min_l by exact Hd.
  now rewrite Z.eqb_refl.
Qed.

Lemma Seek_to_start (cr : simpleFileChunkReader) :
  0 < length cr -> Seek cr 0 io_SeekStart = (0, None, with_position cr 0).
Proof.
  intros Hl. unfold Seek, seekTarget. cbn.
  destruct (Z.gtb_spec 0 (length cr)); [lia | reflexivity].
Qed.

(** One cycle on a file that answers in full: the reader is again without
    buffer, on the same range, and the counter is where it was. *)
Lemma cycle_spec (d : discard_by) (cr : simpleFileChunkReader) (w : World) :
  reader_ok cr -> buffer cr = None ->
  is_int64 (value (prefetchedByteTracker w)) ->
  reads_in_full file cr ->
  (forall p, d = ByReadToEnd p -> length cr <= len p) ->
  exists cr' w',
    cycle file d (cr, w) = Returns (cr', w') /\
    reader_ok cr' /\ buffer cr' = None /\
    length cr' = length cr /\ offsetInFile cr' = offsetInFile cr /\
    prefetchedByteTracker w' = prefetchedByteTracker w.
Proof.
  intros Hok Hb Hv Hfull Hd. pose proof Hok as [Hl [Hp _]].
  unfold cycle. rewrite Prefetch_in_full by assumption.
  set (cr1 := with_buffer cr (Some (next_filled file cr w))).
  assert (Hok1 : reader_ok cr1).
  { repeat split; try apply Hl; try apply Hp.
    cbn. intros b [= <-]. apply len_next_filled. lia. }
  assert (Hcancel : counted (counted (logged cr w) (length cr)) (- length cr)
                    = logged cr w) by (apply counted_cancel; assumption).
  destruct d as [| p].
  - unfold Close. cbn [snd].
    erewrite discardBuffer_held; [| reflexivity | exact Hl].
    change (length cr1) with (length cr). rewrite Hcancel. eexists _, _. split; [reflexivity |].
    split; [now apply with_buffer_None_ok |]. repeat split.
  - rewrite Seek_to_start by apply Hl. cbn [snd].
    set (cr2 := with_position cr1 0).
    assert (Hok2 : reader_ok cr2) by (apply with_position_ok; [exact Hok1 | cbn; lia]).
    assert (HP2 : Prefetch file cr2 (counted (logged cr w) (length cr))
                  = Returns (None, (cr2, counted (logged cr w) (length cr))))
      by (eapply Prefetch_held; reflexivity).
    destruct (Read_spec cr2 _ p _ _ Hok2 ltac:(cbn; lia) HP2) as [b [_ [_ HR]]].
    cbn zeta in HR. rewrite HR.
    change (positionInChunk cr2) with 0. change (length cr2) with (length cr).
    specialize (Hd p eq_refl).
    rewrite Z.sub_0_r, Z.min_r, Z.add_0_l by exact Hd.
    rewrite Z.ltb_irrefl. rewrite Hcancel.
    eexists _, _. split; [reflexivity |].
    split; [apply with_buffer_None_ok; apply with_position_ok;
            [exact Hok2 | cbn; lia] |].
    repeat split.
Qed.

Lemma cycles_spec (ds : list discard_by) (cr : simpleFileChunkReader) (w : World) :
  reader_ok cr -> buffer cr = None ->
  is_int64 (value (prefetchedByteTracker w)) ->
  reads_in_full file cr ->
  (forall p, In (ByReadToEnd p) ds -> length cr <= len p) ->
  exists cr' w',
    cycles file ds (cr, w) = Returns (cr', w') /\
    buffer cr' = None /\
    prefetchedByteTracker w' = prefetchedByteTracker w.
Proof.
  revert cr w. induction ds as [| d ds IH]; intros cr w Hok Hb Hv Hfull Hd.
  - exists cr, w. repeat split. exact Hb.
  - destruct (cycle_spec d cr w Hok Hb Hv Hfull)
      as [cr1 [w1 [Hc [Hok1 [Hb1 [HL [HO Ht]]]]]]].
    { intros p ->. apply Hd. now left. }
    cbn [cycles]. rewrite Hc.
    destruct (IH cr1 w1) as [cr' [w' [Hcs [Hb' Ht']]]]; try assumption.
    + now rewrite Ht.
    + unfold reads_in_full. rewrite HL, HO. exact Hfull.
    + intros p Hin. rewrite HL. apply Hd. now right.
    + exists cr', w'. split; [exact Hcs |]. split; [exact Hb' |].
      now rewrite Ht', Ht.
Qed.

End ChunkReaderFacts.

Section ChunkReaderClaims.

Import ChunkReader.

(** C6: a Read made when positionInChunk >= length returns (0, EOF) at
    once and leaves everything as it was: the caller's slice, the reader
    (so no buffer is materialized again), the counter and the log of
    positioned reads (so Prefetch was not run). *)
Theorem Read_exhausted_returns_EOF
        (file : File) (cr : simpleFileChunkReader) (w : World) (p : list byte) :
  length cr <= positionInChunk cr ->
  Read file cr w p = Returns (0, Some io_EOF, p, (cr, w)).
Proof. intros H. unfold Read. now rewrite geb_true. Qed.

Lemma Read_exhausted_returns_EOF_witness :
  Read (fileOf []) (mkReader 0 4 4 None) quietWorld [x00]
  = Returns (0, Some io_EOF, [x00], (mkReader 0 4 4 None, quietWorld)).
Proof. apply Read_exhausted_returns_EOF. cbn. lia. Defined.

(** C7: when the new position that Seek computes (in int64, as the switch
    on whence has it) is negative, Seek returns an error and the reader
    is unchanged; when it exceeds length, Seek sets positionInChunk to
    length and returns length without error. *)
Theorem Seek_rejects_negative_clamps_past_end
        (cr : simpleFileChunkReader) (offset whence : Z) :
  0 < length cr ->
  (seekTarget cr offset io_SeekStart = offset /\
   seekTarget cr offset io_SeekCurrent = add64 (positionInChunk cr) offset /\
   seekTarget cr offset io_SeekEnd = sub64 (length cr) offset) /\
  (seekTarget cr offset whence < 0 ->
   exists e, Seek cr offset whence = (0, Some e, cr)) /\
  (length cr < seekTarget cr offset whence ->
   Seek cr offset whence = (length cr, None, with_position cr (length cr))).
Proof.
  intros Hl. split; [repeat split |]. split; intros H; unfold Seek.
  - destruct (Z.ltb_spec (seekTarget cr offset whence) 0); [| lia].
    eexists. reflexivity.
  - destruct (Z.ltb_spec (seekTarget cr offset whence) 0); [lia |].
    destruct (Z.gtb_spec (seekTarget cr offset whence) (length cr)); [| lia].
    reflexivity.
Qed.

Lemma Seek_rejects_negative_clamps_past_end_witness :
  (exists e, Seek (mkReader 0 4 1 None) (-3) io_SeekCurrent
             = (0, Some e, mkReader 0 4 1 None)) /\
  Seek (mkReader 0 4 1 None) 9 io_SeekStart = (4, None, mkReader 0 4 4 None).
Proof.
  split.
  - apply (Seek_rejects_negative_clamps_past_end (mkReader 0 4 1 None) (-3) io_SeekCurrent);
      [cbn; lia | vm_compute; reflexivity].
  - apply (Seek_rejects_negative_clamps_past_end (mkReader 0 4 1 None) 9 io_SeekStart);
      [cbn; lia | vm_compute; reflexivity].
Defined.

(** C8: with whence = from-end Seek computes the position length - offset
    (Go's int64 subtraction, the exact difference whenever that fits
    int64), not length + offset: for 0 <= offset <= length Seek returns
    length - offset without error and sets the cursor there, for an offset
    above length the difference is negative and Seek returns its error
    with the reader unchanged, for a negative offset the difference is
    above length and Seek clamps to length; and Seek(0, from-end) on a
    reader of length L returns L without error, with the cursor at L. *)
Theorem Seek_from_end_subtracts (cr : simpleFileChunkReader) (offset : Z) :
  0 < length cr <= maxInt64 ->
  seekTarget cr offset io_SeekEnd = sub64 (length cr) offset /\
  (is_int64 (length cr - offset) ->
   seekTarget cr offset io_SeekEnd = length cr - offset) /\
  (0 <= offset <= length cr ->
   Seek cr offset io_SeekEnd
   = (length cr - offset, None, with_position cr (length cr - offset))) /\
  (length cr < offset -> is_int64 offset ->
   Seek cr offset io_SeekEnd = (0, Some errSeekBeforeBeginning, cr)) /\
  (offset < 0 -> is_int64 (length cr - offset) ->
   Seek cr offset io_SeekEnd = (length cr, None, with_position cr (length cr))) /\
  Seek cr 0 io_SeekEnd = (length cr, None, with_position cr (length cr)).
Proof.
  intros Hl.
  assert (Hexact : forall o, is_int64 (length cr - o) ->
                             seekTarget cr o io_SeekEnd = length cr - o).
  { intros o Hr. unfold seekTarget. cbn. unfold sub64. now apply int64_small. }
  assert (HSeek : forall o,
             is_int64 (length cr - o) ->
             Seek cr o io_SeekEnd
             = if length cr - o <? 0 then (0, Some errSeekBeforeBeginning, cr)
               else (if length cr - o >? length cr then length cr else length cr - o,
                     None,
                     with_position cr (if length cr - o >? length cr
                                       then length cr else length cr - o))).
  { intros o Hr. unfold Seek. rewrite (Hexact o Hr).
    destruct (length cr - o <? 0); reflexivity. }
  split; [reflexivity |]. split; [apply Hexact |].
  split; [| split; [| split]].
  - intros Ho. rewrite HSeek by (unfold is_int64, minInt64, maxInt64 in *; lia).
    destruct (Z.ltb_spec (length cr - offset) 0); [lia |].
    destruct (Z.gtb_spec (length cr - offset) (length cr)); [lia | reflexivity].
  - intros Ho Hi. rewrite HSeek by (unfold is_int64, minInt64, maxInt64 in *; lia).
    destruct (Z.ltb_spec (length cr - offset) 0); [reflexivity | lia].
  - intros Ho Hi. rewrite HSeek by exact Hi.
    destruct (Z.ltb_spec (length cr - offset) 0); [lia |].
    destruct (Z.gtb_spec (length cr - offset) (length cr)); [reflexivity | lia].
  - rewrite HSeek by (unfold is_int64, minInt64, maxInt64 in *; lia).
    rewrite Z.sub_0_r.
    destruct (Z.ltb_spec (length cr) 0); [lia |].
    destruct (Z.gtb_spec (length cr) (length cr)); [lia | reflexivity].
Qed.

Lemma Seek_from_end_subtracts_witness :
  seekTarget (mkReader 0 8 1 None) 3 io_SeekEnd = 8 - 3 /\
  Seek (mkReader 0 8 1 None) 3 io_SeekEnd = (8 - 3, None, mkReader 0 8 (8 - 3) None) /\
  Seek (mkReader 0 8 1 None) 0 io_SeekEnd = (8, None, mkReader 0 8 8 None).
Proof.
  destruct (Seek_from_end_subtracts (mkReader 0 8 1 None) 3)
    as [_ [H1 [H2 [_ [_ H3]]]]].
  - cbn. unfold maxInt64. lia.
  - split; [apply H1; vm_compute; split; discriminate |].
    split; [apply H2; cbn; lia | exact H3].
Defined.

(** C9: the reader the constructor makes (for length > 0) has
    0 <= positionInChunk <= length, and so has every state a reader goes
    through; from such a state each of Read, Seek, Prefetch and Close,
    with any argument and any answer of the file, returns and again
    leaves 0 <= positionInChunk <= length. *)
Theorem position_stays_in_range (file : File) :
  (forall offset l cr,
      NewSimpleFileChunkReader offset l = Returns cr ->
      0 < l /\ position_in_range cr) /\
  (forall s,
      reachable file s ->
      position_in_range (fst s) /\
      forall k, exists s',
          step file k s = Returns s' /\ position_in_range (fst s')).
Proof.
  split.
  - intros offset l cr. unfold NewSimpleFileChunkReader.
    destruct (Z.leb_spec l 0); [discriminate |]. intros [= <-].
    split; [lia |]. unfold position_in_range. cbn. lia.
  - intros [cr w] Hs. pose proof (reachable_ok file _ Hs) as Hok. cbn [fst] in *.
    split; [apply Hok |]. intros k.
    destruct (step_ok file k cr w Hok) as [s' [Hstep Hok']].
    exists s'. split; [exact Hstep | apply Hok'].
Qed.

Lemma position_stays_in_range_witness :
  position_in_range (mkReader 0 4 0 None) /\
  exists s', step (fileOf [x01; x02; x03; x04]) (CallRead [x00; x00; x00])
                  (mkReader 0 4 0 None, quietWorld) = Returns s' /\
             position_in_range (fst s').
Proof.
  assert (Hr : reachable (fileOf [x01; x02; x03; x04]) (mkReader 0 4 0 None, quietWorld)).
  { apply (reach_new _ 0 4); [vm_compute; split; discriminate .. | reflexivity]. }
  destruct (proj2 (position_stays_in_range (fileOf [x01; x02; x03; x04])) _ Hr)
    as [H1 H2].
  split; [exact H1 | exact (H2 (CallRead [x00; x00; x00]))].
Defined.

(** C5: a Read(p) made with positionInChunk < length, on a reader whose
    Prefetch answers without error (the buffer is held, or the file
    delivers it), copies min(len(p), length - positionInChunk) bytes of
    the buffer from positionInChunk on into the front of p and advances
    the cursor by that count; when the cursor stays before length the
    call returns the count without error, and when it reaches length the
    same call returns the count with EOF, the buffer gone and length
    taken off the counter. *)
Theorem Read_copies_and_discards_at_end
        (file : File) (cr : simpleFileChunkReader) (w : World) (p : list byte)
        (cr1 : simpleFileChunkReader) (w1 : World) :
  reader_ok cr ->
  positionInChunk cr < length cr ->
  Prefetch file cr w = Returns (None, (cr1, w1)) ->
  exists b,
    buffer cr1 = Some b /\
    let n := Z.min (len p) (length cr - positionInChunk cr) in
    let p' := take (Z.to_nat n) (drop (Z.to_nat (positionInChunk cr)) b)
              ++ drop (Z.to_nat n) p in
    (positionInChunk cr + n < length cr ->
     Read file cr w p =
     Returns (n, None, p', (with_position cr1 (positionInChunk cr + n), w1))) /\
    (positionInChunk cr + n = length cr ->
     Read file cr w p =
     Returns (n, Some io_EOF, p',
              (with_buffer (with_position cr1 (length cr)) None,
               counted w1 (- length cr)))).
Proof.
  intros Hok Hpos HP.
  destruct (Read_spec file cr w p cr1 w1 Hok Hpos HP) as [b [Hb [_ HR]]].
  exists b. split; [exact Hb |]. cbn zeta in *. rewrite HR. split; intros Hn.
  - destruct (Z.ltb_spec
                (positionInChunk cr + Z.min (len p) (length cr - positionInChunk cr))
                (length cr)); [reflexivity | lia].
  - rewrite Hn, Z.ltb_irrefl. reflexivity.
Qed.

Lemma Read_copies_and_discards_at_end_witness :
  Read (fileOf [x01; x02; x03; x04]) (mkReader 0 4 1 None) quietWorld [x00; x00; x00; x00; x00]
  = Returns (3, Some io_EOF, [x02; x03; x04; x00; x00],
             (mkReader 0 4 4 None, mkWorld (mkCounter 0) [(4, 0)])).
Proof.
  destruct (Read_copies_and_discards_at_end
              (fileOf [x01; x02; x03; x04]) (mkReader 0 4 1 None) quietWorld
              [x00; x00; x00; x00; x00]
              (mkReader 0 4 1 (Some [x01; x02; x03; x04]))
              (mkWorld (mkCounter 4) [(4, 0)]))
    as [b [Hb [_ HR]]].
  - repeat split; cbn; try (unfold maxInt64; lia). discriminate.
  - cbn. lia.
  - vm_compute. reflexivity.
  - rewrite HR by (vm_compute; reflexivity).
    injection Hb as <-. vm_compute. reflexivity.
Defined.

(** C10: after a Prefetch that returned an error (the positioned read
    failed, or was short) the reader holds the buffer of length bytes that
    was allocated for the read and the counter has not moved; a further
    Prefetch then returns success with no read and nothing added to the
    counter, and a Close takes length off the counter, so that the failed
    Prefetch followed by Close leaves the counter length lower than it was. *)
Theorem failed_Prefetch_leaves_buffer
        (file : File) (cr : simpleFileChunkReader) (w : World) (e : error)
        (cr1 : simpleFileChunkReader) (w1 : World) :
  reader_ok cr ->
  Prefetch file cr w = Returns (Some e, (cr1, w1)) ->
  cr1 = with_buffer cr (Some (next_filled file cr w)) /\
  len (next_filled file cr w) = length cr /\
  w1 = logged cr w /\
  (forall w', Prefetch file cr1 w' = Returns (None, (cr1, w'))) /\
  (forall w', Close cr1 w' = (None, (with_buffer cr None, counted w' (- length cr)))) /\
  value (prefetchedByteTracker (snd (snd (Close cr1 w1))))
  = add64 (value (prefetchedByteTracker w)) (- length cr) /\
  (is_int64 (value (prefetchedByteTracker w) - length cr) ->
   value (prefetchedByteTracker (snd (snd (Close cr1 w1))))
   = value (prefetchedByteTracker w) - length cr).
Proof.
  intros Hok HP. pose proof Hok as [Hl _].
  assert (Hb : buffer cr = None).
  { destruct (buffer cr) as [b |] eqn:E; [| reflexivity].
    rewrite (Prefetch_held file cr w b E) in HP. discriminate. }
  assert (H1 : cr1 = with_buffer cr (Some (next_filled file cr w)) /\ w1 = logged cr w).
  { rewrite Prefetch_unmaterialized in HP by (assumption || lia). cbn zeta in HP.
    destruct (failure (next_answer file cr w));
      [| destruct (next_bytesRead file cr w =? length cr)];
      try discriminate; inversion HP; subst; split; reflexivity. }
  destruct H1 as [-> ->].
  assert (HC : forall w', Close (with_buffer cr (Some (next_filled file cr w))) w'
                          = (None, (with_buffer cr None, counted w' (- length cr)))).
  { intros w'. unfold Close.
    erewrite discardBuffer_held; [reflexivity | reflexivity | exact Hl]. }
  split; [reflexivity |]. split; [apply len_next_filled; lia |].
  split; [reflexivity |].
  split; [intros w'; eapply Prefetch_held; reflexivity |].
  split; [exact HC |]. rewrite HC. cbn. split; [reflexivity |].
  intros Hr. unfold add64.
  replace (value (prefetchedByteTracker w) + - length cr)
    with (value (prefetchedByteTracker w) - length cr) by lia.
  now apply int64_small.
Qed.

Lemma failed_Prefetch_leaves_buffer_witness :
  Prefetch twoBytesNoError (mkReader 0 4 0 (Some [x01; x02; x00; x00]))
           (mkWorld (mkCounter 0) [(4, 0)])
  = Returns (None, (mkReader 0 4 0 (Some [x01; x02; x00; x00]),
                    mkWorld (mkCounter 0) [(4, 0)])) /\
  value (prefetchedByteTracker
           (snd (snd (Close (mkReader 0 4 0 (Some [x01; x02; x00; x00]))
                            (mkWorld (mkCounter 0) [(4, 0)])))))
  = 0 - 4.
Proof.
  destruct (failed_Prefetch_leaves_buffer
              twoBytesNoError (mkReader 0 4 0 None) quietWorld errShortRead
              (mkReader 0 4 0 (Some [x01; x02; x00; x00]))
              (mkWorld (mkCounter 0) [(4, 0)]))
    as [_ [_ [_ [H1 [_ [_ H2]]]]]].
  - repeat split; cbn; try (unfold maxInt64; lia). discriminate.
  - vm_compute. reflexivity.
  - split; [apply H1 | apply H2; vm_compute; split; discriminate].
Defined.

(** C1, on the code: for a reader of the range [0, 4) whose positioned
    read delivers two bytes, Prefetch returns the short-read error when the
    read reports no error (and the read's own error when it reports
    io.EOF, as a regular file of two bytes does), and in both cases the
    reader is left holding the four-byte buffer, two bytes filled. *)
Theorem Prefetch_short_read_keeps_half_filled_buffer :
  NewSimpleFileChunkReader 0 4 = Returns (mkReader 0 4 0 None) /\
  Prefetch twoBytesNoError (mkReader 0 4 0 None) quietWorld
  = Returns (Some errShortRead,
             (mkReader 0 4 0 (Some [x01; x02; x00; x00]),
              mkWorld (mkCounter 0) [(4, 0)])) /\
  Prefetch (fileOf [x01; x02]) (mkReader 0 4 0 None) quietWorld
  = Returns (Some io_EOF,
             (mkReader 0 4 0 (Some [x01; x02; x00; x00]),
              mkWorld (mkCounter 0) [(4, 0)])).
Proof. repeat split; vm_compute; reflexivity. Qed.

(** C2: from a reader without buffer, a Prefetch that succeeds adds length
    to the counter, once, and leaves a buffer; the discard that follows,
    by Close or by a Read that reaches the end of the range, takes length
    off, once, and leaves no buffer, so that the counter is back at its
    value; discarding is idempotent and does nothing when no buffer is
    held; and any number of such cycles, on a file that answers in full,
    leaves the reader without buffer and the counter at its starting
    value. *)
Theorem materialize_discard_cycle
        (file : File) (cr : simpleFileChunkReader) (w : World) :
  reader_ok cr ->
  buffer cr = None ->
  is_int64 (value (prefetchedByteTracker w)) ->
  (forall cr1 w1,
      Prefetch file cr w = Returns (None, (cr1, w1)) ->
      prefetchedByteTracker w1 = Add (prefetchedByteTracker w) (length cr) /\
      (exists b, buffer cr1 = Some b) /\
      buffer (fst (snd (Close cr1 w1))) = None /\
      prefetchedByteTracker (snd (snd (Close cr1 w1)))
      = Add (prefetchedByteTracker w1) (- length cr) /\
      prefetchedByteTracker (snd (snd (Close cr1 w1))) = prefetchedByteTracker w /\
      (forall p n p' s2,
          positionInChunk cr < length cr ->
          Read file cr1 w1 p = Returns (n, Some io_EOF, p', s2) ->
          buffer (fst s2) = None /\
          prefetchedByteTracker (snd s2) = Add (prefetchedByteTracker w1) (- length cr) /\
          prefetchedByteTracker (snd s2) = prefetchedByteTracker w)) /\
  (forall cr0 w0,
      discardBuffer (fst (discardBuffer cr0 w0)) (snd (discardBuffer cr0 w0))
      = discardBuffer cr0 w0) /\
  (forall cr0 w0, buffer cr0 = None -> discardBuffer cr0 w0 = (cr0, w0)) /\
  (reads_in_full file cr ->
   forall ds,
     (forall p, In (ByReadToEnd p) ds -> length cr <= len p) ->
     exists cr' w',
       cycles file ds (cr, w) = Returns (cr', w') /\
       buffer cr' = None /\
       prefetchedByteTracker w' = prefetchedByteTracker w).
Proof.
  intros Hok Hb Hv. pose proof Hok as [Hl [Hp _]].
  split; [| split; [| split]].
  - intros cr1 w1 HP.
    rewrite Prefetch_unmaterialized in HP by (assumption || lia). cbn zeta in HP.
    destruct (failure (next_answer file cr w)); [discriminate |].
    destruct (next_bytesRead file cr w =? length cr); [| discriminate].
    inversion HP; subst; clear HP.
    set (cr1 := with_buffer cr (Some (next_filled file cr w))).
    assert (Hok1 : reader_ok cr1).
    { repeat split; try apply Hl; try apply Hp.
      cbn. intros b [= <-]. apply len_next_filled. lia. }
    assert (Hcancel : counted (counted (logged cr w) (length cr)) (- length cr)
                      = logged cr w) by (apply counted_cancel; assumption).
    assert (HC : Close cr1 (counted (logged cr w) (length cr))
                 = (None, (with_buffer cr None,
                           counted (counted (logged cr w) (length cr)) (- length cr)))).
    { unfold Close. erewrite discardBuffer_held; [reflexivity | reflexivity | exact Hl]. }
    split; [reflexivity |]. split; [eexists; reflexivity |].
    rewrite HC. cbn [fst snd]. split; [reflexivity |]. split; [reflexivity |].
    split; [now rewrite Hcancel |].
    intros p n p' s2 Hpos HR.
    assert (HP1 : Prefetch file cr1 (counted (logged cr w) (length cr))
                  = Returns (None, (cr1, counted (logged cr w) (length cr))))
      by (eapply Prefetch_held; reflexivity).
    destruct (Read_spec file cr1 _ p _ _ Hok1 Hpos HP1) as [b [_ [_ HR']]].
    cbn zeta in HR'. rewrite HR' in HR.
    destruct (positionInChunk cr1
              + Z.min (len p) (length cr1 - positionInChunk cr1) <? length cr1);
      [discriminate |].
    inversion HR; subst; clear HR. cbn [fst snd].
    split; [reflexivity |]. split; [reflexivity |].
    change (length cr1) with (length cr). now rewrite Hcancel.
  - intros cr0 w0. unfold discardBuffer.
    destruct (buffer cr0) eqn:E; cbn; [reflexivity | now rewrite E].
  - intros cr0 w0. apply discardBuffer_none.
  - intros Hfull ds Hds. now apply cycles_spec.
Qed.

Lemma materialize_discard_cycle_witness :
  exists cr' w',
    cycles (fileOf [x01; x02; x03; x04])
           [ByClose; ByReadToEnd [x00; x00; x00; x00; x00]; ByClose]
           (mkReader 0 4 0 None, quietWorld) = Returns (cr', w') /\
    buffer cr' = None /\
    prefetchedByteTracker w' = prefetchedByteTracker quietWorld.
Proof.
  apply (materialize_discard_cycle (fileOf [x01; x02; x03; x04])
                                   (mkReader 0 4 0 None) quietWorld).
  - repeat split; cbn; try (unfold maxInt64; lia). discriminate.
  - reflexivity.
  - vm_compute. split; discriminate.
  - intros k. vm_compute. split; [reflexivity | discriminate].
  - intros p [Hin | [Hin | [Hin | []]]]; try discriminate.
    injection Hin as <-. vm_compute. discriminate.
Defined.

End ChunkReaderClaims.

(** ** More on the slice pool *)

Section SlicePoolMore.

Import SlicePool.

Lemma spec_slotIndex_pow2 (k : Z) : 0 <= k -> spec_slotIndex (2 ^ k) = k.
Proof.
  intros Hk. assert (0 < 2 ^ k) by (apply Z.pow_pos_nonneg; lia).
  rewrite spec_slotIndex_log2_up by lia. now apply Z.log2_up_pow2.
Qed.

Lemma pow2_lt_2_32 (k : Z) : 0 <= k <= 31 -> 0 < 2 ^ k < 2 ^ 32.
Proof.
  intros Hk. split; [apply Z.pow_pos_nonneg; lia |].
  apply Z.pow_lt_mono_r; lia.
Qed.

Lemma getSlotInfo_pow2 (k : Z) :
  0 <= k <= 31 -> getSlotInfo (2 ^ k) = Returns (k, 2 ^ k).
Proof.
  intros Hk. rewrite getSlotInfo_spec by now apply pow2_lt_2_32.
  rewrite spec_slotIndex_pow2 by lia. reflexivity.
Qed.

Lemma spec_slotIndex_le_31 (n : Z) : 0 < n <= 2 ^ 31 -> 0 <= spec_slotIndex n <= 31.
Proof.
  intros Hn. split.
  - apply spec_slotIndex_bounds. split; [lia |].
    apply Z.le_lt_trans with (2 ^ 31); [lia | reflexivity].
  - rewrite <- (spec_slotIndex_pow2 31) by lia. now apply spec_slotIndex_mono.
Qed.

(** The capacity of the bucket is less than twice the size asked for. *)
Lemma maxCap_lt_double (n : Z) : 0 < n -> 2 ^ spec_slotIndex n < 2 * n.
Proof.
  intros Hn. rewrite spec_slotIndex_log2_up by lia.
  destruct (Z.eq_dec n 1) as [-> | Hne]; [reflexivity |].
  destruct (Z.log2_up_spec n) as [Hlo _]; [lia |].
  assert (0 < Z.log2_up n) by (apply Z.log2_up_pos; lia).
  replace (Z.log2_up n) with (Z.succ (Z.pred (Z.log2_up n))) at 1 by lia.
  rewrite Z.pow_succ_r by lia. lia.
Qed.

Lemma store_same (mp : multiSizeSlicePool) (i : Z) (pool : simpleSlicePool) :
  poolsBySize mp !! Z.to_nat i = Some pool -> store mp i pool = mp.
Proof.
  intros Hl. destruct mp as [pools]. unfold store. cbn in *.
  f_equal. now apply list_insert_id.
Qed.

Lemma store_store (mp : multiSizeSlicePool) (i : Z) (p1 p2 : simpleSlicePool) :
  store (store mp i p1) i p2 = store mp i p2.
Proof. unfold store. cbn. f_equal. apply list_insert_insert_eq. Qed.

Lemma store_lookup (mp : multiSizeSlicePool) (i : Z) (pool p1 : simpleSlicePool) :
  poolsBySize mp !! Z.to_nat i = Some pool ->
  poolsBySize (store mp i p1) !! Z.to_nat i = Some p1.
Proof.
  intros Hl. unfold store. cbn. apply list_lookup_insert_eq.
  now apply lookup_lt_Some in Hl.
Qed.

(** [ReturnSlice] of a buffer whose capacity is a [uint32] above zero, when
    its bucket exists. *)
Lemma ReturnSlice_spec (mp : multiSizeSlicePool) (s : slice) (pool : simpleSlicePool) :
  0 < cap s < 2 ^ 32 ->
  poolsBySize mp !! Z.to_nat (spec_slotIndex (cap s)) = Some pool ->
  ReturnSlice mp s = Returns (store mp (spec_slotIndex (cap s)) (Put pool s)).
Proof.
  intros Hc Hl. pose proof (spec_slotIndex_bounds _ Hc).
  unfold ReturnSlice, uint32. rewrite Z.mod_small by lia.
  rewrite getSlotInfo_spec by exact Hc.
  now rewrite (index_spec _ _ pool) by (lia || exact Hl).
Qed.

(** X1 (getSlotInfo): the capacity of the bucket chosen for a size holds the
    size and is less than twice the size, so less than half of a rented
    buffer is ever unused. *)
Theorem getSlotInfo_capacity_fits (n : Z) :
  0 < n < 2 ^ 32 ->
  exists slotIndex maxCapInSlot,
    getSlotInfo n = Returns (slotIndex, maxCapInSlot) /\
    0 <= slotIndex <= 32 /\
    n <= maxCapInSlot < 2 * n.
Proof.
  intros Hn. exists (spec_slotIndex n), (2 ^ spec_slotIndex n).
  split; [now apply getSlotInfo_spec |].
  split; [now apply spec_slotIndex_bounds |].
  split; [apply size_le_maxCap; lia | apply maxCap_lt_double; lia].
Qed.

Lemma getSlotInfo_capacity_fits_witness :
  exists slotIndex maxCapInSlot,
    getSlotInfo 1000 = Returns (slotIndex, maxCapInSlot) /\
    0 <= slotIndex <= 32 /\
    1000 <= maxCapInSlot < 2 * 1000.
Proof. apply getSlotInfo_capacity_fits. split; reflexivity. Defined.

(** X2 (getSlotInfo, ReturnSlice): for a size up to 2^31 the bucket found
    from the capacity, as ReturnSlice finds it, is the bucket found from
    the size, as RentSlice finds it; and the bucket index does not
    decrease when the size grows. *)
Theorem getSlotInfo_of_capacity (n m : Z) :
  0 < n <= 2 ^ 31 -> n <= m < 2 ^ 32 ->
  exists slotIndex maxCapInSlot slotIndex' maxCapInSlot',
    getSlotInfo n = Returns (slotIndex, maxCapInSlot) /\
    getSlotInfo (uint32 maxCapInSlot) = Returns (slotIndex, maxCapInSlot) /\
    getSlotInfo m = Returns (slotIndex', maxCapInSlot') /\
    slotIndex <= slotIndex'.
Proof.
  intros Hn Hm. pose proof (spec_slotIndex_le_31 n Hn) as Hb.
  exists (spec_slotIndex n), (2 ^ spec_slotIndex n),
         (spec_slotIndex m), (2 ^ spec_slotIndex m).
  split; [apply getSlotInfo_spec; lia |]. split; [| split].
  - unfold uint32. pose proof (pow2_lt_2_32 _ Hb).
    rewrite Z.mod_small by lia. now apply getSlotInfo_pow2.
  - apply getSlotInfo_spec. lia.
  - apply spec_slotIndex_mono. lia.
Qed.

Lemma getSlotInfo_of_capacity_witness :
  exists slotIndex maxCapInSlot slotIndex' maxCapInSlot',
    getSlotInfo 100 = Returns (slotIndex, maxCapInSlot) /\
    getSlotInfo (uint32 maxCapInSlot) = Returns (slotIndex, maxCapInSlot) /\
    getSlotInfo 5000 = Returns (slotIndex', maxCapInSlot') /\
    slotIndex <= slotIndex'.
Proof.
  apply getSlotInfo_of_capacity; split; try reflexivity; discriminate.
Defined.

(** X3 (ReturnSlice): a slice whose capacity is zero as a uint32 (a nil or
    empty slice, or one of capacity 2^32) makes ReturnSlice panic, whatever
    the pool. *)
Theorem ReturnSlice_zero_capacity_panics (mp : multiSizeSlicePool) (s : slice) :
  uint32 (cap s) = 0 ->
  ReturnSlice mp s = Panics "exact slice length must be greater than zero".
Proof. intros H. unfold ReturnSlice. now rewrite H. Qed.

Lemma ReturnSlice_zero_capacity_panics_witness :
  match NewMultiSizeSlicePool 4 with
  | Returns mp =>
      ReturnSlice mp (mkSlice [] 0)
      = Panics "exact slice length must be greater than zero"
  | Panics _ => False
  end.
Proof.
  cbv beta iota delta [NewMultiSizeSlicePool getSlotInfo]. cbn.
  apply ReturnSlice_zero_capacity_panics. reflexivity.
Defined.

(** X4 (getSlotInfo, RentSlice, ReturnSlice): every size above 2^31 goes to
    bucket 32, whose capacity 2^32 is zero as a uint32: a buffer of that
    capacity, which is what RentSlice makes for such a size, cannot be
    given back, ReturnSlice panics on it. *)
Theorem slices_above_2_31_cannot_be_returned (desiredSize : Z) :
  2 ^ 31 < desiredSize < 2 ^ 32 ->
  exists maxCapInSlot,
    getSlotInfo desiredSize = Returns (32, maxCapInSlot) /\
    maxCapInSlot = 2 ^ 32 /\
    forall mp s,
      cap s = maxCapInSlot ->
      ReturnSlice mp s = Panics "exact slice length must be greater than zero".
Proof.
  intros Hd. exists (2 ^ 32).
  assert (Hs : spec_slotIndex desiredSize = 32).
  { rewrite spec_slotIndex_log2_up by lia.
    apply Z.log2_up_unique; [lia |]. change (Z.pred 32) with 31. lia. }
  split; [| split; [reflexivity |]].
  - rewrite getSlotInfo_spec by lia. now rewrite Hs.
  - intros mp s Hc. unfold ReturnSlice. now rewrite Hc.
Qed.

Lemma slices_above_2_31_cannot_be_returned_witness :
  exists maxCapInSlot,
    getSlotInfo 3000000000 = Returns (32, maxCapInSlot) /\
    maxCapInSlot = 2 ^ 32 /\
    forall mp s,
      cap s = maxCapInSlot ->
      ReturnSlice mp s = Panics "exact slice length must be greater than zero".
Proof. apply slices_above_2_31_cannot_be_returned. split; reflexivity. Defined.

(** X5 (RentSlice, ReturnSlice, Get, Put): a buffer of a bucket's capacity
    returned to that bucket while it is empty is the buffer the next
    RentSlice of any size of that bucket hands out: same backing array,
    content as it was left, length set to the size asked for; and the pool
    is then again as it was before the return. *)
Theorem ReturnSlice_then_RentSlice_reuses
        (mp : multiSizeSlicePool) (s : slice) (desiredSize : Z)
        (pool : simpleSlicePool) :
  0 < desiredSize <= 2 ^ 31 ->
  cap s = 2 ^ spec_slotIndex desiredSize ->
  poolsBySize mp !! Z.to_nat (spec_slotIndex desiredSize) = Some pool ->
  c pool = [] ->
  0 < maxCapacity pool ->
  exists mp1,
    ReturnSlice mp s = Returns mp1 /\
    RentSlice mp1 desiredSize = Returns (mkSlice (array s) desiredSize, mp).
Proof.
  intros Hd Hc Hl Hempty Hroom.
  pose proof (spec_slotIndex_le_31 _ Hd) as Hb.
  pose proof (pow2_lt_2_32 _ Hb) as Hp.
  pose proof (size_le_maxCap desiredSize (proj1 Hd)) as Hfit.
  set (k := spec_slotIndex desiredSize) in *.
  assert (Hk : spec_slotIndex (cap s) = k) by (rewrite Hc; apply spec_slotIndex_pow2; lia).
  eexists. split.
  - apply (ReturnSlice_spec mp s pool); [lia | now rewrite Hk].
  - rewrite Hk. unfold Put. rewrite Hempty.
    destruct (Z.ltb_spec (len (@nil slice)) (maxCapacity pool)) as [_ | Hn];
      [| unfold len in Hn; cbn in Hn; lia].
    unfold RentSlice. rewrite getSlotInfo_spec by lia. fold k.
    rewrite (index_spec _ _ (mkSimple ([] ++ [s]) (maxCapacity pool)))
      by (lia || now apply (store_lookup mp k pool)).
    cbn [Get c app]. unfold reslice. rewrite Hc.
    destruct (Z.ltb_spec desiredSize 0); [lia |].
    destruct (Z.ltb_spec (2 ^ k) desiredSize); [lia |].
    cbn [orb maxCapacity]. rewrite store_store.
    rewrite store_same; [reflexivity |].
    rewrite Hl. f_equal. destruct pool as [q m]. cbn in *. now subst q.
Qed.

Lemma ReturnSlice_then_RentSlice_reuses_witness :
  exists mp1,
    ReturnSlice (mkMulti (replicate 3 (newSimpleSlicePool 1000)))
                (mkSlice [x07; x08; x09; x0a] 2) = Returns mp1 /\
    RentSlice mp1 3
    = Returns (mkSlice [x07; x08; x09; x0a] 3,
               mkMulti (replicate 3 (newSimpleSlicePool 1000))).
Proof.
  apply (ReturnSlice_then_RentSlice_reuses
           (mkMulti (replicate 3 (newSimpleSlicePool 1000)))
           (mkSlice [x07; x08; x09; x0a] 2) 3 (newSimpleSlicePool 1000)).
  - split; [reflexivity | discriminate].
  - reflexivity.
  - reflexivity.
  - reflexivity.
  - reflexivity.
Defined.

(** X6 (ReturnSlice, Put): when the bucket of a returned buffer is full,
    the buffer is dropped: ReturnSlice returns and the pool is unchanged. *)
Theorem ReturnSlice_full_bucket_drops
        (mp : multiSizeSlicePool) (s : slice) (pool : simpleSlicePool) :
  0 < cap s < 2 ^ 32 ->
  poolsBySize mp !! Z.to_nat (spec_slotIndex (cap s)) = Some pool ->
  maxCapacity pool <= len (c pool) ->
  ReturnSlice mp s = Returns mp.
Proof.
  intros Hc Hl Hfull. rewrite (ReturnSlice_spec mp s pool Hc Hl).
  unfold Put. destruct (Z.ltb_spec (len (c pool)) (maxCapacity pool)); [lia |].
  now rewrite store_same.
Qed.

Lemma ReturnSlice_full_bucket_drops_witness :
  ReturnSlice (mkMulti [mkSimple [mkSlice [x01] 1] 1; mkSimple [] 1])
              (mkSlice [x02] 1)
  = Returns (mkMulti [mkSimple [mkSlice [x01] 1] 1; mkSimple [] 1]).
Proof.
  apply (ReturnSlice_full_bucket_drops _ _ (mkSimple [mkSlice [x01] 1] 1)).
  - split; reflexivity.
  - reflexivity.
  - vm_compute. discriminate.
Defined.

Lemma index_inv (pools : list simpleSlicePool) (i : Z) (pool : simpleSlicePool) :
  index pools i = Returns pool -> 0 <= i /\ pools !! Z.to_nat i = Some pool.
Proof.
  unfold index. destruct (Z.ltb_spec i 0); [discriminate |].
  destruct (pools !! Z.to_nat i); [| discriminate].
  intros [= <-]. split; [lia | reflexivity].
Qed.

Lemma store_bounded (mp : multiSizeSlicePool) (i : Z) (pool : simpleSlicePool) :
  pool_bounded mp -> len (c pool) <= maxCapacity pool ->
  pool_bounded (store mp i pool).
Proof.
  intros Hb Hp j q Hl. unfold store in Hl. cbn in Hl.
  apply list_lookup_insert_Some in Hl as [[_ [<- _]] | [_ Hl]];
    [exact Hp | exact (Hb j q Hl)].
Qed.

Lemma Put_bounded (pool : simpleSlicePool) (s : slice) :
  len (c pool) <= maxCapacity pool ->
  len (c (Put pool s)) <= maxCapacity (Put pool s).
Proof.
  intros H. unfold Put.
  destruct (Z.ltb_spec (len (c pool)) (maxCapacity pool)); [| exact H].
  cbn. unfold len in *. rewrite length_app. cbn. lia.
Qed.

(** X7 (NewMultiSizeSlicePool, RentSlice, ReturnSlice, Put): the pool never
    holds more buffers in a bucket than the bucket's channel has room for:
    a new pool has empty buckets with room for 1000, and neither
    ReturnSlice nor RentSlice, whatever their argument, takes a bucket
    beyond its room. *)
Theorem pool_stays_bounded :
  (forall maxSliceLength mp,
      NewMultiSizeSlicePool maxSliceLength = Returns mp ->
      pool_bounded mp /\
      Forall (fun pool => c pool = [] /\ maxCapacity pool = 1000) (poolsBySize mp)) /\
  (forall mp s mp',
      pool_bounded mp -> ReturnSlice mp s = Returns mp' -> pool_bounded mp') /\
  (forall mp desiredSize s mp',
      pool_bounded mp -> RentSlice mp desiredSize = Returns (s, mp') ->
      pool_bounded mp').
Proof.
  split; [| split].
  - intros maxSliceLength mp. unfold NewMultiSizeSlicePool.
    destruct (getSlotInfo maxSliceLength) as [[maxSlotIndex ?] |]; [| discriminate].
    intros [= <-]. cbn [poolsBySize].
    assert (HF : Forall (fun pool => c pool = [] /\ maxCapacity pool = 1000)
                        (map (fun _ : nat => newSimpleSlicePool 1000)
                             (seq 0 (Z.to_nat (maxSlotIndex + 1))))).
    { apply Forall_fmap, Forall_true. intros j. split; reflexivity. }
    split; [| exact HF].
    intros i pool Hl. cbn in Hl.
    apply list_elem_of_lookup_2 in Hl.
    rewrite Forall_forall in HF. destruct (HF pool Hl) as [-> ->].
    unfold len. cbn. lia.
  - intros mp s mp' Hb. unfold ReturnSlice.
    destruct (getSlotInfo (uint32 (cap s))) as [[slotIndex ?] |]; [| discriminate].
    destruct (index (poolsBySize mp) slotIndex) as [pool |] eqn:E; [| discriminate].
    intros [= <-]. apply index_inv in E as [_ E].
    apply store_bounded; [exact Hb |]. apply Put_bounded. exact (Hb _ _ E).
  - intros mp desiredSize s mp' Hb. unfold RentSlice.
    destruct (getSlotInfo desiredSize) as [[slotIndex maxCapInSlot] |]; [| discriminate].
    destruct (index (poolsBySize mp) slotIndex) as [pool |] eqn:E; [| discriminate].
    apply index_inv in E as [_ E]. pose proof (Hb _ _ E) as Hp.
    unfold Get. destruct (c pool) as [| typedSlice rest] eqn:Hc.
    + destruct (make desiredSize maxCapInSlot); [| discriminate].
      now intros [= _ <-].
    + destruct (reslice typedSlice desiredSize); [| discriminate].
      intros [= _ <-]. apply store_bounded; [exact Hb |].
      cbn. unfold len in *. cbn in Hp. lia.
Qed.

Lemma pool_stays_bounded_witness :
  match NewMultiSizeSlicePool 4 with
  | Returns mp => pool_bounded mp
  | Panics _ => False
  end.
Proof.
  destruct (NewMultiSizeSlicePool 4) as [mp |] eqn:E; [| discriminate].
  exact (proj1 (proj1 pool_stays_bounded 4 mp E)).
Defined.

(** X8 (ReturnSlice, RentSlice): ReturnSlice files a buffer by its capacity
    rounded up to a power of two, so a buffer that did not come from the
    pool, of a capacity that is not a power of two, lands in a bucket of
    larger buffers; the next RentSlice of a size of that bucket above the
    buffer's capacity takes it out and panics on re-slicing it. *)
Theorem foreign_slice_poisons_bucket
        (mp : multiSizeSlicePool) (s : slice) (desiredSize : Z)
        (pool : simpleSlicePool) :
  0 < cap s ->
  cap s < desiredSize <= 2 ^ spec_slotIndex (cap s) ->
  desiredSize < 2 ^ 32 ->
  poolsBySize mp !! Z.to_nat (spec_slotIndex (cap s)) = Some pool ->
  c pool = [] ->
  0 < maxCapacity pool ->
  exists mp1,
    ReturnSlice mp s = Returns mp1 /\
    RentSlice mp1 desiredSize = Panics "slice bounds out of range".
Proof.
  intros Hc Hd Hu Hl Hempty Hroom.
  assert (Hcu : 0 < cap s < 2 ^ 32) by lia.
  pose proof (spec_slotIndex_bounds _ Hcu) as Hb.
  set (k := spec_slotIndex (cap s)) in *.
  assert (Hk : spec_slotIndex desiredSize = k).
  { apply Z.le_antisymm.
    - rewrite <- (spec_slotIndex_pow2 k) by lia. apply spec_slotIndex_mono. lia.
    - apply spec_slotIndex_mono. lia. }
  eexists. split; [apply (ReturnSlice_spec mp s pool); assumption |].
  fold k. unfold Put. rewrite Hempty.
  destruct (Z.ltb_spec (len (@nil slice)) (maxCapacity pool)) as [_ | Hn];
    [| unfold len in Hn; cbn in Hn; lia].
  unfold RentSlice. rewrite getSlotInfo_spec by lia. rewrite Hk.
  rewrite (index_spec _ _ (mkSimple ([] ++ [s]) (maxCapacity pool)))
    by (lia || now apply (store_lookup mp k pool)).
  cbn [Get c app]. unfold reslice.
  destruct (Z.ltb_spec desiredSize 0); [lia |].
  destruct (Z.ltb_spec (cap s) desiredSize); [reflexivity | lia].
Qed.

Lemma foreign_slice_poisons_bucket_witness :
  exists mp1,
    ReturnSlice (mkMulti (replicate 3 (newSimpleSlicePool 1000)))
                (mkSlice [x01; x02; x03] 3) = Returns mp1 /\
    RentSlice mp1 4 = Panics "slice bounds out of range".
Proof.
  apply (foreign_slice_poisons_bucket
           (mkMulti (replicate 3 (newSimpleSlicePool 1000)))
           (mkSlice [x01; x02; x03] 3) 4 (newSimpleSlicePool 1000)).
  - reflexivity.
  - split; [reflexivity | discriminate].
  - reflexivity.
  - reflexivity.
  - reflexivity.
  - reflexivity.
Defined.

(** X9 (NewMultiSizeSlicePool, RentSlice): a pool made for slices up to
    maxSliceLength serves every size from 1 to maxSliceLength: on the new
    pool RentSlice returns a fresh zeroed slice of the size asked for, of
    the capacity of its bucket, and leaves the pool as it is. *)
Theorem new_pool_serves_up_to_max (maxSliceLength desiredSize : Z) :
  0 < desiredSize <= maxSliceLength ->
  maxSliceLength < 2 ^ 32 ->
  exists mp,
    NewMultiSizeSlicePool maxSliceLength = Returns mp /\
    len (poolsBySize mp) = spec_slotIndex maxSliceLength + 1 /\
    RentSlice mp desiredSize
    = Returns (mkSlice (replicate (Z.to_nat (2 ^ spec_slotIndex desiredSize)) x00)
                       desiredSize, mp).
Proof.
  intros Hd Hm.
  destruct (NewMultiSizeSlicePool_spec maxSliceLength) as [mp [HN [Hlen _]]]; [lia |].
  exists mp. split; [exact HN |]. split; [exact Hlen |].
  assert (Hdu : 0 < desiredSize < 2 ^ 32) by lia.
  pose proof (spec_slotIndex_bounds _ Hdu) as Hb.
  pose proof (spec_slotIndex_mono desiredSize maxSliceLength Hd) as Hmono.
  destruct (lookup_lt_is_Some_2 (poolsBySize mp) (Z.to_nat (spec_slotIndex desiredSize)))
    as [pool Hpool].
  { unfold len in Hlen. lia. }
  assert (Hc : c pool = []).
  { unfold NewMultiSizeSlicePool in HN.
    rewrite getSlotInfo_spec in HN by lia. injection HN as <-.
    cbn in Hpool. rewrite list_lookup_fmap in Hpool.
    destruct (seq 0 _ !! _); cbn in Hpool; [| discriminate].
    now injection Hpool as <-. }
  unfold RentSlice. rewrite getSlotInfo_spec by exact Hdu.
  rewrite (index_spec _ _ pool) by (lia || exact Hpool).
  unfold Get. rewrite Hc.
  rewrite make_spec; [reflexivity |].
  split; [lia | apply size_le_maxCap; lia].
Qed.

Lemma new_pool_serves_up_to_max_witness :
  exists mp,
    NewMultiSizeSlicePool 1000 = Returns mp /\
    len (poolsBySize mp) = spec_slotIndex 1000 + 1 /\
    RentSlice mp 100
    = Returns (mkSlice (replicate (Z.to_nat (2 ^ spec_slotIndex 100)) x00) 100, mp).
Proof.
  apply new_pool_serves_up_to_max; [split; [reflexivity | discriminate] | reflexivity].
Defined.

End SlicePoolMore.

(** ** More on the chunk reader *)

Section ChunkReaderMore.

Import ChunkReader.

Ltac split_ands := repeat match goal with |- _ /\ _ => split end.

Lemma Add_cancel (t : SharedCounter) (l : Z) :
  is_int64 (value t) -> 0 < l <= maxInt64 -> Add (Add t l) (- l) = t.
Proof.
  intros Hv Hl. destruct t as [v]. unfold Add. cbn in *. f_equal.
  pose proof (add64_neg64_cancel v l Hv Hl) as H.
  unfold neg64 in H. rewrite (int64_small (- l)) in H; [exact H |].
  unfold is_int64, minInt64, maxInt64 in *. lia.
Qed.

Lemma with_position_same (cr : simpleFileChunkReader) :
  with_position cr (positionInChunk cr) = cr.
Proof. now destruct cr. Qed.

(** How one call moves the buffer and the shared state when the file
    answers in full: nothing changes, or the buffer is read in, or it is
    let go, or it is read in and let go within the call. *)
Lemma step_in_full (file : File) (k : call) (cr : simpleFileChunkReader) (w : World) :
  reader_ok cr -> reads_in_full file cr ->
  exists cr' w',
    step file k (cr, w) = Returns (cr', w') /\
    reader_ok cr' /\
    length cr' = length cr /\ offsetInFile cr' = offsetInFile cr /\
    ((buffer cr' = buffer cr /\ w' = w) \/
     (buffer cr = None /\ buffer cr' = Some (next_filled file cr w) /\
      w' = counted (logged cr w) (length cr)) \/
     ((exists b, buffer cr = Some b) /\ buffer cr' = None /\
      w' = counted w (- length cr)) \/
     (buffer cr = None /\ buffer cr' = None /\
      w' = counted (counted (logged cr w) (length cr)) (- length cr))).
Proof.
  intros Hok Hfull. pose proof Hok as [Hl [Hp Hbuf]].
  unfold position_in_range in Hp.
  assert (HP : exists cr1 w1,
             Prefetch file cr w = Returns (None, (cr1, w1)) /\
             reader_ok cr1 /\ length cr1 = length cr /\
             offsetInFile cr1 = offsetInFile cr /\
             positionInChunk cr1 = positionInChunk cr /\
             ((buffer cr1 = buffer cr /\ (exists b, buffer cr = Some b) /\ w1 = w) \/
              (buffer cr = None /\ buffer cr1 = Some (next_filled file cr w) /\
               w1 = counted (logged cr w) (length cr)))).
  { destruct (buffer cr) as [b |] eqn:E.
    - exists cr, w. rewrite (Prefetch_held file cr w b E).
      split_ands; try reflexivity; try exact Hok.
      left. split_ands; [exact E | now exists b | reflexivity].
    - rewrite Prefetch_in_full by assumption. eexists _, _.
      split_ands; try reflexivity.
      + repeat split; try apply Hl; try apply Hp.
        cbn. intros b [= <-]. apply len_next_filled. lia.
      + right. split_ands; reflexivity. }
  destruct HP as [cr1 [w1 [HP [Hok1 [HL [HO [HPos Hcase]]]]]]].
  destruct k as [| offset whence | p |]; cbn [step].
  - rewrite HP. exists cr1, w1.
    split_ands; try reflexivity; try assumption.
    destruct Hcase as [[Hb [_ ->]] | [Hb [Hb1 ->]]];
      [left | right; left]; split_ands; try reflexivity; assumption.
  - eexists _, _. split; [reflexivity |]. split; [now apply Seek_ok |].
    unfold Seek.
    destruct (seekTarget cr offset whence <? 0); cbn;
      split_ands; try reflexivity; left; split; reflexivity.
  - destruct (Z.lt_ge_cases (positionInChunk cr) (length cr)) as [Hlt | Hge].
    + destruct (Read_spec file cr w p cr1 w1 Hok Hlt HP) as [b [Hb1 [_ HR]]].
      cbn zeta in HR. rewrite HR.
      set (n := Z.min (len p) (length cr - positionInChunk cr)).
      assert (Hn : 0 <= positionInChunk cr + n <= length cr)
        by (unfold n, len; lia).
      assert (Hok2 : reader_ok (with_position cr1 (positionInChunk cr + n)))
        by (apply with_position_ok; [exact Hok1 | now rewrite HL]).
      destruct (Z.ltb_spec (positionInChunk cr + n) (length cr)).
      * eexists _, _. split; [reflexivity |].
        split_ands; try assumption. cbn [buffer with_position].
        destruct Hcase as [[Hb [_ ->]] | [Hb [Hb' ->]]];
          [left | right; left]; split_ands; try reflexivity; assumption.
      * eexists _, _. split; [reflexivity |].
        split_ands; try assumption; [now apply with_buffer_None_ok |].
        cbn [buffer with_buffer].
        destruct Hcase as [[Hb [Hex ->]] | [Hb [Hb' ->]]];
          [right; right; left | right; right; right];
          split_ands; try reflexivity; assumption.
    + unfold Read. rewrite geb_true by exact Hge.
      exists cr, w. split_ands; try reflexivity; try exact Hok.
      left. split; reflexivity.
  - unfold Close. cbn [snd]. destruct (buffer cr) as [b |] eqn:E.
    + rewrite (discardBuffer_held cr w b E Hl). eexists _, _.
      split_ands; try reflexivity; [now apply with_buffer_None_ok |].
      right; right; left. split_ands; try reflexivity. now exists b.
    + rewrite (discardBuffer_none cr w E). exists cr, w.
      split_ands; try reflexivity; try exact Hok.
      left. split; [exact E | reflexivity].
Qed.

Lemma reads_in_full_same_range (file : File) (cr cr' : simpleFileChunkReader) :
  length cr' = length cr -> offsetInFile cr' = offsetInFile cr ->
  reads_in_full file cr -> reads_in_full file cr'.
Proof. unfold reads_in_full. now intros -> ->. Qed.

(** Over a whole run on a file that answers in full: the counter stands
    [length] above its base while the buffer is held and at its base
    otherwise, and the reads made are reads of the reader's range. *)
Lemma run_in_full (file : File) (t0 : SharedCounter) (calls0 : list (Z * Z))
      (ks : list call) :
  is_int64 (value t0) ->
  forall cr w,
    reader_ok cr -> reads_in_full file cr ->
    prefetchedByteTracker w
    = match buffer cr with Some _ => Add t0 (length cr) | None => t0 end ->
    (exists k, readAtCalls w = replicate k (length cr, offsetInFile cr) ++ calls0) ->
    exists cr' w',
      run file ks (cr, w) = Returns (cr', w') /\
      reader_ok cr' /\
      length cr' = length cr /\ offsetInFile cr' = offsetInFile cr /\
      prefetchedByteTracker w'
      = match buffer cr' with Some _ => Add t0 (length cr) | None => t0 end /\
      (exists k, readAtCalls w' = replicate k (length cr, offsetInFile cr) ++ calls0).
Proof.
  intros Ht0. induction ks as [| k ks IH]; intros cr w Hok Hfull Ht [n Hcalls].
  - exists cr, w. split_ands; try reflexivity; try assumption. now exists n.
  - pose proof Hok as [Hl _].
    destruct (step_in_full file k cr w Hok Hfull)
      as [cr1 [w1 [Hstep [Hok1 [HL [HO Hcase]]]]]].
    cbn [run]. rewrite Hstep.
    destruct (IH cr1 w1) as [cr' [w' [Hrun [Hok' [HL' [HO' [Ht' Hc']]]]]]].
    + exact Hok1.
    + now apply (reads_in_full_same_range file cr).
    + rewrite HL.
      destruct Hcase as [[Hb ->] | [[Hb [Hb1 ->]] | [[[b Hb] [Hb1 ->]] | [Hb [Hb1 ->]]]]].
      * now rewrite Hb.
      * rewrite Hb1. rewrite Hb in Ht. cbn. now rewrite Ht.
      * rewrite Hb1. rewrite Hb in Ht. cbn. rewrite Ht. now apply Add_cancel.
      * rewrite Hb1. rewrite Hb in Ht. cbn. rewrite Ht. now apply Add_cancel.
    + rewrite HL, HO.
      destruct Hcase as [[Hb ->] | [[Hb [Hb1 ->]] | [[[b Hb] [Hb1 ->]] | [Hb [Hb1 ->]]]]];
        cbn; rewrite Hcalls;
        [now exists n | now exists (S n) | now exists n | now exists (S n)].
    + exists cr', w'. split; [exact Hrun |]. split; [exact Hok' |].
      rewrite HL', HO', <- HL, <- HO. split_ands; try reflexivity; try assumption.
Qed.

(** X10 (Prefetch, Read, Seek, Close, discardBuffer): on a file that
    answers every read of the range in full, whatever calls are made and in
    whatever order, the run never panics, the counter is exactly length
    above its starting value while the reader holds its buffer and exactly
    at its starting value while it does not, and every positioned read the
    reader made was a read of length bytes at offsetInFile. *)
Theorem run_keeps_the_tracker_exact
        (file : File) (cr0 : simpleFileChunkReader) (w0 : World) (ks : list call) :
  reader_ok cr0 ->
  buffer cr0 = None ->
  is_int64 (value (prefetchedByteTracker w0)) ->
  reads_in_full file cr0 ->
  exists cr w k,
    run file ks (cr0, w0) = Returns (cr, w) /\
    prefetchedByteTracker w
    = match buffer cr with
      | Some _ => Add (prefetchedByteTracker w0) (length cr0)
      | None => prefetchedByteTracker w0
      end /\
    readAtCalls w = replicate k (length cr0, offsetInFile cr0) ++ readAtCalls w0.
Proof.
  intros Hok Hb Hv Hfull.
  destruct (run_in_full file (prefetchedByteTracker w0) (readAtCalls w0) ks Hv
                        cr0 w0 Hok Hfull)
    as [cr [w [Hrun [_ [_ [_ [Ht [k Hk]]]]]]]].
  - now rewrite Hb.
  - now exists 0%nat.
  - exists cr, w, k. split_ands; assumption.
Qed.

Lemma run_keeps_the_tracker_exact_witness :
  exists cr w k,
    run (fileOf [x01; x02; x03; x04])
        [CallRead [x00; x00]; CallSeek 0 io_SeekStart; CallRead [x00; x00; x00; x00];
         CallPrefetch; CallPrefetch]
        (mkReader 0 4 0 None, quietWorld) = Returns (cr, w) /\
    prefetchedByteTracker w
    = match buffer cr with
      | Some _ => Add (prefetchedByteTracker quietWorld) 4
      | None => prefetchedByteTracker quietWorld
      end /\
    readAtCalls w = replicate k (4, 0) ++ readAtCalls quietWorld.
Proof.
  apply (run_keeps_the_tracker_exact (fileOf [x01; x02; x03; x04])
                                     (mkReader 0 4 0 None) quietWorld).
  - repeat split; cbn; try (unfold maxInt64; lia). discriminate.
  - reflexivity.
  - vm_compute. split; discriminate.
  - intros k. vm_compute. split; [reflexivity | discriminate].
Defined.

(** A regular file whose content covers the range answers the read of
    the range with the bytes of the range. *)
Lemma len_rangeOf (content : list byte) (cr : simpleFileChunkReader) :
  0 <= length cr -> range_in_file content cr ->
  len (rangeOf content cr) = length cr.
Proof.
  intros Hl [Ho He]. unfold rangeOf, len in *.
  rewrite length_take, length_drop. lia.
Qed.

Lemma next_answer_fileOf (content : list byte) (cr : simpleFileChunkReader) (w : World) :
  0 <= length cr -> range_in_file content cr ->
  next_answer (fileOf content) cr w = mkAnswer (rangeOf content cr) None.
Proof.
  intros Hl Hr. unfold next_answer, fileOf. fold (rangeOf content cr).
  rewrite len_rangeOf by assumption. now rewrite Z.ltb_irrefl.
Qed.

Lemma next_filled_fileOf (content : list byte) (cr : simpleFileChunkReader) (w : World) :
  0 <= length cr -> range_in_file content cr ->
  next_filled (fileOf content) cr w = rangeOf content cr.
Proof.
  intros Hl Hr. pose proof (len_rangeOf content cr Hl Hr) as Hlen.
  unfold next_filled. rewrite next_answer_fileOf by assumption. cbn [delivered].
  unfold len in Hlen.
  rewrite take_ge by lia.
  replace (Z.to_nat (length cr) - Datatypes.length (rangeOf content cr))%nat
    with 0%nat by lia.
  apply app_nil_r.
Qed.

Lemma reads_in_full_fileOf (content : list byte) (cr : simpleFileChunkReader) :
  0 <= length cr -> range_in_file content cr -> reads_in_full (fileOf content) cr.
Proof.
  intros Hl Hr k.
  pose proof (next_answer_fileOf content cr (mkWorld (mkCounter 0) []) Hl Hr) as H.
  unfold next_answer in H. unfold fileOf in *. rewrite H. cbn.
  split; [reflexivity |]. rewrite len_rangeOf by assumption. lia.
Qed.

(** Over a whole run on such a file a buffer that is held holds the bytes
    of the range. *)
Lemma run_fileOf (content : list byte) (ks : list call) :
  forall cr w,
    reader_ok cr -> range_in_file content cr ->
    (forall b, buffer cr = Some b -> b = rangeOf content cr) ->
    exists cr' w',
      run (fileOf content) ks (cr, w) = Returns (cr', w') /\
      reader_ok cr' /\
      length cr' = length cr /\ offsetInFile cr' = offsetInFile cr /\
      (forall b, buffer cr' = Some b -> b = rangeOf content cr).
Proof.
  induction ks as [| k ks IH]; intros cr w Hok Hr Hb.
  - exists cr, w. split_ands; try reflexivity; assumption.
  - pose proof Hok as [Hl _].
    assert (Hfull : reads_in_full (fileOf content) cr)
      by (apply reads_in_full_fileOf; [lia | exact Hr]).
    destruct (step_in_full (fileOf content) k cr w Hok Hfull)
      as [cr1 [w1 [Hstep [Hok1 [HL [HO Hcase]]]]]].
    assert (Hsame : rangeOf content cr1 = rangeOf content cr)
      by (unfold rangeOf; now rewrite HL, HO).
    cbn [run]. rewrite Hstep.
    destruct (IH cr1 w1) as [cr' [w' [Hrun [Hok' [HL' [HO' Hb']]]]]].
    + exact Hok1.
    + unfold range_in_file. now rewrite HL, HO.
    + rewrite Hsame. intros b Hb1.
      destruct Hcase as [[E _] | [[_ [E _]] | [[_ [E _]] | [_ [E _]]]]];
        rewrite E in Hb1; try discriminate.
      * now apply Hb.
      * injection Hb1 as <-. apply next_filled_fileOf; [lia | exact Hr].
    + exists cr', w'. split; [exact Hrun |]. split; [exact Hok' |].
      rewrite HL', HO', HL, HO. split_ands; try reflexivity.
      now rewrite <- Hsame.
Qed.

(** X11 (NewSimpleFileChunkReader, Prefetch, Read, Seek, Close): for a
    reader made on a range that lies inside a regular file, after any
    calls whatever, a Read made before the end of the range returns
    min(len(p), length - positionInChunk) bytes, which are the bytes of
    the file at offsetInFile + positionInChunk, with EOF exactly when they
    reach the end of the range: seeks, earlier reads, discards and
    re-reads never make Read deliver other bytes than the file's. *)
Theorem Read_delivers_the_bytes_of_the_file
        (content : list byte) (offset l : Z) (w0 : World) (ks : list call)
        (p : list byte) :
  0 <= offset ->
  0 < l <= maxInt64 ->
  offset + l <= len content ->
  exists cr0 cr w,
    NewSimpleFileChunkReader offset l = Returns cr0 /\
    run (fileOf content) ks (cr0, w0) = Returns (cr, w) /\
    (positionInChunk cr < l ->
     let n := Z.min (len p) (l - positionInChunk cr) in
     exists s',
       Read (fileOf content) cr w p
       = Returns (n,
                  (if positionInChunk cr + n <? l then None else Some io_EOF),
                  take (Z.to_nat n)
                       (drop (Z.to_nat (offset + positionInChunk cr)) content)
                  ++ drop (Z.to_nat n) p,
                  s')).
Proof.
  intros Ho Hl He.
  assert (HN : NewSimpleFileChunkReader offset l = Returns (mkReader offset l 0 None)).
  { unfold NewSimpleFileChunkReader. destruct (Z.leb_spec l 0); [lia | reflexivity]. }
  set (cr0 := mkReader offset l 0 None) in *.
  assert (Hok0 : reader_ok cr0)
    by (repeat split; cbn; try lia; discriminate).
  assert (Hr0 : range_in_file content cr0) by (split; cbn; lia).
  destruct (run_fileOf content ks cr0 w0 Hok0 Hr0)
    as [cr [w [Hrun [Hok [HL [HO Hb]]]]]]; [discriminate |].
  cbn in HL, HO.
  exists cr0, cr, w. split; [exact HN |]. split; [exact Hrun |].
  intros Hpos n.
  assert (Hr : range_in_file content cr) by (unfold range_in_file; now rewrite HL, HO).
  assert (Hsame : rangeOf content cr = rangeOf content cr0)
    by (unfold rangeOf; now rewrite HL, HO).
  assert (HP : exists cr1 w1,
             Prefetch (fileOf content) cr w = Returns (None, (cr1, w1)) /\
             buffer cr1 = Some (rangeOf content cr0)).
  { destruct (buffer cr) as [b |] eqn:E.
    - exists cr, w. split; [now apply (Prefetch_held _ cr w b) |].
      rewrite E. f_equal. now apply Hb.
    - rewrite Prefetch_in_full
        by first [assumption | apply reads_in_full_fileOf; [lia | exact Hr]].
      eexists _, _. split; [reflexivity |]. cbn.
      rewrite next_filled_fileOf by (lia || exact Hr). now rewrite Hsame. }
  destruct HP as [cr1 [w1 [HP Hb1]]].
  destruct (Read_spec (fileOf content) cr w p cr1 w1 Hok ltac:(lia) HP)
    as [b [Hb2 [_ HR]]].
  rewrite Hb1 in Hb2. injection Hb2 as <-.
  cbn zeta in HR. rewrite HL in HR. fold n in HR. rewrite HR.
  destruct Hok as [_ [Hp _]]. unfold position_in_range in Hp. rewrite HL in Hp.
  assert (Hn : 0 <= n <= l - positionInChunk cr) by (unfold n, len; lia).
  assert (Hbytes : take (Z.to_nat n) (drop (Z.to_nat (positionInChunk cr))
                                           (rangeOf content cr0))
                   = take (Z.to_nat n)
                          (drop (Z.to_nat (offset + positionInChunk cr)) content)).
  { unfold rangeOf. cbn [length offsetInFile cr0].
    rewrite skipn_firstn_comm, take_take, drop_drop.
    rewrite Z2Nat.inj_add by lia. f_equal. lia. }
  rewrite Hbytes.
  destruct (positionInChunk cr + n <? l); eexists; reflexivity.
Qed.

Lemma Read_delivers_the_bytes_of_the_file_witness :
  exists cr0 cr w,
    NewSimpleFileChunkReader 1 4 = Returns cr0 /\
    run (fileOf [x0a; x0b; x0c; x0d; x0e; x0f])
        [CallRead [x00; x00; x00; x00; x00]; CallSeek 1 io_SeekStart]
        (cr0, quietWorld) = Returns (cr, w) /\
    (positionInChunk cr < 4 ->
     let n := Z.min (len [x00; x00]) (4 - positionInChunk cr) in
     exists s',
       Read (fileOf [x0a; x0b; x0c; x0d; x0e; x0f]) cr w [x00; x00]
       = Returns (n,
                  (if positionInChunk cr + n <? 4 then None else Some io_EOF),
                  take (Z.to_nat n)
                       (drop (Z.to_nat (1 + positionInChunk cr))
                             [x0a; x0b; x0c; x0d; x0e; x0f])
                  ++ drop (Z.to_nat n) [x00; x00],
                  s')).
Proof.
  apply Read_delivers_the_bytes_of_the_file.
  - lia.
  - unfold maxInt64. lia.
  - vm_compute. discriminate.
Defined.

(** X12 (NewSimpleFileChunkReader, Read, Prefetch, discardBuffer): on a new
    reader whose range lies inside a regular file, one Read into a slice
    of at least length bytes returns length and EOF, puts the bytes of the
    range at the front of the slice, makes exactly one positioned read,
    and leaves the reader at the end of the range without buffer and the
    counter at the value it had. *)
Theorem Read_whole_chunk_at_once
        (content : list byte) (offset l : Z) (w : World) (p : list byte) :
  0 <= offset ->
  0 < l <= maxInt64 ->
  offset + l <= len content ->
  l <= len p ->
  is_int64 (value (prefetchedByteTracker w)) ->
  exists cr0,
    NewSimpleFileChunkReader offset l = Returns cr0 /\
    Read (fileOf content) cr0 w p
    = Returns (l, Some io_EOF,
               take (Z.to_nat l) (drop (Z.to_nat offset) content)
               ++ drop (Z.to_nat l) p,
               (mkReader offset l l None,
                mkWorld (prefetchedByteTracker w) ((l, offset) :: readAtCalls w))).
Proof.
  intros Ho Hl He Hp Hv.
  exists (mkReader offset l 0 None). split.
  { unfold NewSimpleFileChunkReader. destruct (Z.leb_spec l 0); [lia | reflexivity]. }
  set (cr0 := mkReader offset l 0 None).
  assert (Hok0 : reader_ok cr0) by (repeat split; cbn; try lia; discriminate).
  assert (Hr0 : range_in_file content cr0) by (split; cbn; lia).
  assert (HP : Prefetch (fileOf content) cr0 w
               = Returns (None, (with_buffer cr0 (Some (rangeOf content cr0)),
                                 counted (logged cr0 w) l))).
  { rewrite Prefetch_in_full; try assumption; try reflexivity.
    - now rewrite next_filled_fileOf by (cbn; lia || exact Hr0).
    - apply reads_in_full_fileOf; [cbn; lia | exact Hr0]. }
  destruct (Read_spec (fileOf content) cr0 w p _ _ Hok0 ltac:(cbn; lia) HP)
    as [b [Hb [_ HR]]].
  cbn in Hb. injection Hb as <-. cbn zeta in HR. rewrite HR.
  cbn [positionInChunk length cr0].
  rewrite Z.sub_0_r, Z.min_r, Z.add_0_l, Z.ltb_irrefl by lia.
  change (length cr0) with l.
  rewrite (counted_cancel (logged cr0 w) l) by (cbn; assumption).
  change (Z.to_nat 0) with 0%nat. rewrite drop_0. unfold rangeOf. cbn [length offsetInFile cr0].
  rewrite take_idemp. reflexivity.
Qed.

Lemma Read_whole_chunk_at_once_witness :
  exists cr0,
    NewSimpleFileChunkReader 1 3 = Returns cr0 /\
    Read (fileOf [x0a; x0b; x0c; x0d; x0e]) cr0 quietWorld [x00; x00; x00; x00]
    = Returns (3, Some io_EOF,
               take (Z.to_nat 3) (drop (Z.to_nat 1) [x0a; x0b; x0c; x0d; x0e])
               ++ drop (Z.to_nat 3) [x00; x00; x00; x00],
               (mkReader 1 3 3 None,
                mkWorld (prefetchedByteTracker quietWorld)
                        ((3, 1) :: readAtCalls quietWorld))).
Proof.
  apply Read_whole_chunk_at_once.
  - lia.
  - unfold maxInt64. lia.
  - vm_compute. discriminate.
  - vm_compute. discriminate.
  - vm_compute. split; discriminate.
Defined.

(** X13 (Read): a Read into an empty slice made before the end of the
    range returns (0, nil), never EOF, and leaves the cursor where it is;
    it does run Prefetch, so the buffer is read in and counted. *)
Theorem Read_into_empty_slice
        (file : File) (cr : simpleFileChunkReader) (w : World)
        (cr1 : simpleFileChunkReader) (w1 : World) :
  reader_ok cr ->
  positionInChunk cr < length cr ->
  Prefetch file cr w = Returns (None, (cr1, w1)) ->
  Read file cr w [] = Returns (0, None, [], (cr1, w1)) /\
  positionInChunk cr1 = positionInChunk cr /\
  exists b, buffer cr1 = Some b.
Proof.
  intros Hok Hpos HP.
  destruct (Prefetch_returns file cr w Hok)
    as [err [cr1' [w1' [HP' [_ [_ [_ [_ Hp1]]]]]]]].
  rewrite HP in HP'. injection HP' as <- <- <-.
  destruct (Read_spec file cr w [] cr1 w1 Hok Hpos HP) as [b [Hb [_ HR]]].
  cbn zeta in HR. rewrite HR.
  change (len (@nil byte)) with 0. rewrite Z.min_l by lia.
  rewrite Z.add_0_r. destruct (Z.ltb_spec (positionInChunk cr) (length cr)); [| lia].
  rewrite <- Hp1, with_position_same. cbn.
  split; [reflexivity |]. split; [reflexivity | now exists b].
Qed.

Lemma Read_into_empty_slice_witness :
  Read (fileOf [x01; x02; x03; x04]) (mkReader 0 4 1 None) quietWorld []
  = Returns (0, None, [],
             (mkReader 0 4 1 (Some [x01; x02; x03; x04]),
              mkWorld (mkCounter 4) [(4, 0)])).
Proof.
  apply (Read_into_empty_slice (fileOf [x01; x02; x03; x04])
                               (mkReader 0 4 1 None) quietWorld).
  - repeat split; cbn; try (unfold maxInt64; lia). discriminate.
  - cbn. lia.
  - vm_compute. reflexivity.
Defined.

(** X14 (Read, Prefetch): a Read whose Prefetch fails returns (0, that
    error) and copies nothing, but the reader keeps the buffer of the
    failed read; the next Read, whatever the file would answer by then,
    makes no positioned read and returns bytes of that buffer without
    error, as if the chunk had been read. *)
Theorem Read_after_failed_Prefetch_serves_the_buffer
        (file : File) (cr : simpleFileChunkReader) (w : World) (e : error)
        (cr1 : simpleFileChunkReader) (w1 : World) (p : list byte) :
  reader_ok cr ->
  positionInChunk cr < length cr ->
  Prefetch file cr w = Returns (Some e, (cr1, w1)) ->
  Read file cr w p = Returns (0, Some e, p, (cr1, w1)) /\
  forall file' w' p',
    let n := Z.min (len p') (length cr - positionInChunk cr) in
    let bytes := take (Z.to_nat n)
                      (drop (Z.to_nat (positionInChunk cr)) (next_filled file cr w))
                 ++ drop (Z.to_nat n) p' in
    Read file' cr1 w' p'
    = Returns (if positionInChunk cr + n <? length cr
               then (n, None, bytes,
                     (with_position cr1 (positionInChunk cr + n), w'))
               else (n, Some io_EOF, bytes,
                     (with_buffer (with_position cr1 (positionInChunk cr + n)) None,
                      counted w' (- length cr)))).
Proof.
  intros Hok Hpos HP. pose proof Hok as [Hl [Hp _]].
  assert (Hb : buffer cr = None).
  { destruct (buffer cr) as [b |] eqn:E; [| reflexivity].
    rewrite (Prefetch_held file cr w b E) in HP. discriminate. }
  assert (H1 : cr1 = with_buffer cr (Some (next_filled file cr w))).
  { rewrite Prefetch_unmaterialized in HP by (assumption || lia). cbn zeta in HP.
    destruct (failure (next_answer file cr w));
      [| destruct (next_bytesRead file cr w =? length cr)];
      try discriminate; now inversion HP. }
  split.
  - unfold Read. rewrite geb_false by exact Hpos. now rewrite HP.
  - intros file' w' p'. subst cr1.
    set (cr1 := with_buffer cr (Some (next_filled file cr w))).
    assert (Hok1 : reader_ok cr1).
    { repeat split; try apply Hl; try apply Hp.
      cbn. intros b [= <-]. apply len_next_filled. lia. }
    assert (HP1 : Prefetch file' cr1 w' = Returns (None, (cr1, w')))
      by (eapply Prefetch_held; reflexivity).
    destruct (Read_spec file' cr1 w' p' cr1 w' Hok1 Hpos HP1) as [b [Hb1 [_ HR]]].
    cbn in Hb1. injection Hb1 as <-. exact HR.
Qed.

Lemma Read_after_failed_Prefetch_serves_the_buffer_witness :
  Read twoBytesNoError (mkReader 0 4 0 None) quietWorld [x09; x09; x09]
  = Returns (0, Some errShortRead, [x09; x09; x09],
             (mkReader 0 4 0 (Some [x01; x02; x00; x00]),
              mkWorld (mkCounter 0) [(4, 0)])) /\
  Read (fileOf [x0a; x0b; x0c; x0d]) (mkReader 0 4 0 (Some [x01; x02; x00; x00]))
       (mkWorld (mkCounter 0) [(4, 0)]) [x09; x09; x09]
  = Returns (3, None, [x01; x02; x00],
             (mkReader 0 4 3 (Some [x01; x02; x00; x00]),
              mkWorld (mkCounter 0) [(4, 0)])).
Proof.
  destruct (Read_after_failed_Prefetch_serves_the_buffer
              twoBytesNoError (mkReader 0 4 0 None) quietWorld errShortRead
              (mkReader 0 4 0 (Some [x01; x02; x00; x00]))
              (mkWorld (mkCounter 0) [(4, 0)]) [x09; x09; x09])
    as [H1 H2].
  - repeat split; cbn; try (unfold maxInt64; lia). discriminate.
  - cbn. lia.
  - vm_compute. reflexivity.
  - split; [exact H1 |].
    exact (H2 (fileOf [x0a; x0b; x0c; x0d]) (mkWorld (mkCounter 0) [(4, 0)])
              [x09; x09; x09]).
Defined.

Lemma int64_overflow (z : Z) :
  maxInt64 < z < 2 ^ 64 -> int64 z = z - 2 ^ 64.
Proof.
  unfold maxInt64, int64, wrap. intros Hz.
  change (2 ^ (64 - 1)) with 9223372036854775808.
  change (2 ^ 63) with 9223372036854775808 in Hz.
  change (2 ^ 64) with 18446744073709551616 in *.
  replace (z + 9223372036854775808)
    with (z - 9223372036854775808 + 1 * 18446744073709551616) by lia.
  rewrite Z_mod_plus_full, Z.mod_small; lia.
Qed.

Lemma Seek_accepts (cr : simpleFileChunkReader) (offset whence pos : Z) :
  seekTarget cr offset whence = pos -> 0 <= pos <= length cr ->
  Seek cr offset whence = (pos, None, with_position cr pos).
Proof.
  intros Ht Hp. unfold Seek. rewrite Ht.
  destruct (Z.ltb_spec pos 0); [lia |].
  destruct (Z.gtb_spec pos (length cr)); [lia | reflexivity].
Qed.

(** X15 (Seek): a seek whose target lies in the range is exact, for each of
    the three origins: from the start the cursor becomes offset, from the
    current position it moves by offset, from the end it becomes length
    minus offset; the new position is returned without error and only the
    cursor changes. *)
Theorem Seek_in_range_is_exact (cr : simpleFileChunkReader) (offset : Z) :
  reader_ok cr ->
  (0 <= offset <= length cr ->
   Seek cr offset io_SeekStart = (offset, None, with_position cr offset)) /\
  (0 <= positionInChunk cr + offset <= length cr ->
   Seek cr offset io_SeekCurrent
   = (positionInChunk cr + offset, None,
      with_position cr (positionInChunk cr + offset))) /\
  (0 <= offset <= length cr ->
   Seek cr offset io_SeekEnd
   = (length cr - offset, None, with_position cr (length cr - offset))).
Proof.
  intros [Hl [Hp _]]. unfold position_in_range in Hp.
  split; [| split]; intros Ho; apply Seek_accepts; try lia.
  - reflexivity.
  - unfold seekTarget. cbn. unfold add64. apply int64_small.
    unfold is_int64, minInt64, maxInt64 in *. lia.
  - unfold seekTarget. cbn. unfold sub64. apply int64_small.
    unfold is_int64, minInt64, maxInt64 in *. lia.
Qed.

Lemma Seek_in_range_is_exact_witness :
  Seek (mkReader 0 8 5 None) 2 io_SeekStart = (2, None, mkReader 0 8 2 None) /\
  Seek (mkReader 0 8 5 None) (-2) io_SeekCurrent = (5 + -2, None, mkReader 0 8 3 None) /\
  Seek (mkReader 0 8 5 None) 2 io_SeekEnd = (8 - 2, None, mkReader 0 8 6 None).
Proof.
  destruct (Seek_in_range_is_exact (mkReader 0 8 5 None) 2) as [H1 [_ H3]];
    [repeat split; cbn; try (unfold maxInt64; lia); discriminate |].
  destruct (Seek_in_range_is_exact (mkReader 0 8 5 None) (-2)) as [_ [H2 _]];
    [repeat split; cbn; try (unfold maxInt64; lia); discriminate |].
  split; [apply H1; cbn; lia |].
  split; [apply H2; cbn; lia | apply H3; cbn; lia].
Defined.

(** X16 (Seek): a whence that is none of io.SeekStart, io.SeekCurrent and
    io.SeekEnd is not rejected: Seek ignores the offset, returns the
    current position without error and leaves the reader as it is. *)
Theorem Seek_unknown_whence_is_a_tell
        (cr : simpleFileChunkReader) (offset whence : Z) :
  reader_ok cr ->
  whence <> io_SeekStart -> whence <> io_SeekCurrent -> whence <> io_SeekEnd ->
  Seek cr offset whence = (positionInChunk cr, None, cr).
Proof.
  intros [_ [Hp _]] H0 H1 H2. unfold position_in_range in Hp.
  rewrite (Seek_accepts cr offset whence (positionInChunk cr)).
  - now rewrite with_position_same.
  - unfold seekTarget.
    destruct (Z.eqb_spec whence io_SeekStart); [contradiction |].
    destruct (Z.eqb_spec whence io_SeekCurrent); [contradiction |].
    destruct (Z.eqb_spec whence io_SeekEnd); [contradiction | reflexivity].
  - exact Hp.
Qed.

Lemma Seek_unknown_whence_is_a_tell_witness :
  Seek (mkReader 0 8 5 None) 100 7 = (5, None, mkReader 0 8 5 None).
Proof.
  apply (Seek_unknown_whence_is_a_tell (mkReader 0 8 5 None) 100 7);
    [repeat split; cbn; try (unfold maxInt64; lia); discriminate
    | discriminate ..].
Defined.

(** X17 (Seek): the position arithmetic is int64 arithmetic: when the sum
    of the cursor and the offset, or the difference of length and the
    offset, is above the largest int64, the computed position wraps to a
    negative number and Seek answers the seek-before-beginning error,
    leaving the reader unchanged, instead of clamping to length. *)
Theorem Seek_overflow_is_an_error (cr : simpleFileChunkReader) (offset : Z) :
  reader_ok cr ->
  is_int64 offset ->
  (maxInt64 < positionInChunk cr + offset ->
   Seek cr offset io_SeekCurrent = (0, Some errSeekBeforeBeginning, cr)) /\
  (maxInt64 < length cr - offset ->
   Seek cr offset io_SeekEnd = (0, Some errSeekBeforeBeginning, cr)).
Proof.
  intros [Hl [Hp _]] Ho. unfold position_in_range in Hp.
  assert (H64 : 2 ^ 64 = 18446744073709551616) by reflexivity.
  split; intros Hov; unfold Seek, seekTarget; cbn.
  - unfold add64. rewrite int64_overflow
      by (unfold is_int64, minInt64, maxInt64 in *; lia).
    destruct (Z.ltb_spec (positionInChunk cr + offset - 2 ^ 64) 0);
      [reflexivity |].
    unfold is_int64, minInt64, maxInt64 in *. lia.
  - unfold sub64. rewrite int64_overflow
      by (unfold is_int64, minInt64, maxInt64 in *; lia).
    destruct (Z.ltb_spec (length cr - offset - 2 ^ 64) 0); [reflexivity |].
    unfold is_int64, minInt64, maxInt64 in *. lia.
Qed.

Lemma Seek_overflow_is_an_error_witness :
  Seek (mkReader 0 8 5 None) 9223372036854775807 io_SeekCurrent
  = (0, Some errSeekBeforeBeginning, mkReader 0 8 5 None).
Proof.
  assert (Hok : reader_ok (mkReader 0 8 5 None))
    by (repeat split; cbn; try (unfold maxInt64; lia); discriminate).
  assert (Ho : is_int64 9223372036854775807) by (vm_compute; split; discriminate).
  apply (proj1 (Seek_overflow_is_an_error (mkReader 0 8 5 None)
                                          9223372036854775807 Hok Ho)).
  vm_compute. reflexivity.
Defined.

End ChunkReaderMore.

(** ** The S3 service traverser *)

Section S3ServiceTraverserFacts.

Import S3ServiceTraverser.

Variable World : Type.
Variable error : Type.
Variable storedObject : Type.
Variable withContainerName : storedObject -> string -> storedObject.
Variable objectFilter : Type.
Variable bucketTraverser : Type.
Variable ListBuckets : World -> (list string + error) * World.
Variable newS3Traverser : string -> World -> (bucketTraverser + error) * World.
Variable traverseBucket :
  bucketTraverser -> objectProcessor World error storedObject ->
  list objectFilter -> World -> option error * World.

Local Abbreviation loop Match :=
  (traverseBuckets World error storedObject withContainerName objectFilter
                   bucketTraverser Match newS3Traverser traverseBucket).
Local Abbreviation service Match :=
  (traverse World error storedObject withContainerName objectFilter
            bucketTraverser ListBuckets Match newS3Traverser traverseBucket).

(** X18 (s3ServiceTraverser.traverse): the buckets are traversed one after
    the other and the first error ends the traversal: over a list of
    buckets followed by another, the traversal is the traversal of the
    first list and, only if that returned no error, the traversal of the
    second from where the first ended; after an error no later bucket is
    looked at. *)
Theorem traverseBuckets_stops_at_first_error
        (Match : string -> string -> bool * option error)
        (bucketPattern : string) (processor : objectProcessor World error storedObject)
        (filters : list objectFilter) (buckets1 buckets2 : list string) (w : World) :
  loop Match bucketPattern processor filters (buckets1 ++ buckets2) w
  = match loop Match bucketPattern processor filters buckets1 w with
    | (Some err, w1) => (Some err, w1)
    | (None, w1) => loop Match bucketPattern processor filters buckets2 w1
    end.
Proof.
  revert w. induction buckets1 as [| name rest IH]; intros w; cbn [app traverseBuckets].
  - reflexivity.
  - destruct (checkPattern error Match bucketPattern name); [| apply IH | reflexivity].
    destruct (newS3Traverser name w) as [[bucket | err] w1]; [| reflexivity].
    destruct (traverseBucket bucket _ filters w1) as [[err |] w2];
      [reflexivity | apply IH].
Qed.

(** X19 (s3ServiceTraverser.traverse): with a pattern that is not empty and
    that filepath.Match accepts on the names listed, the buckets whose
    name does not match are passed over without any effect: the traversal
    is the traversal, without pattern, of the matching buckets in the
    order listed. *)
Theorem traverseBuckets_with_pattern_filters
        (Match : string -> string -> bool * option error)
        (bucketPattern : string) (processor : objectProcessor World error storedObject)
        (filters : list objectFilter) (bucketInfo : list string) (w : World) :
  bucketPattern <> EmptyString ->
  (forall name, In name bucketInfo -> snd (Match bucketPattern name) = None) ->
  loop Match bucketPattern processor filters bucketInfo w
  = loop Match EmptyString processor filters
         (List.filter (fun name => fst (Match bucketPattern name)) bucketInfo) w.
Proof.
  intros Hne. assert (Hp : String.eqb bucketPattern "" = false)
    by now apply String.eqb_neq.
  revert w. induction bucketInfo as [| name rest IH]; intros w Hok; [reflexivity |].
  assert (Hrest : forall n, In n rest -> snd (Match bucketPattern n) = None)
    by (intros n Hn; apply Hok; now right).
  pose proof (Hok name (or_introl eq_refl)) as Hname.
  cbn [traverseBuckets List.filter]. unfold checkPattern at 1. rewrite Hp. cbn [negb].
  destruct (Match bucketPattern name) as [ok err]. cbn in Hname. subst err.
  cbn [fst]. destruct ok; cbn [negb].
  - cbn [traverseBuckets checkPattern String.eqb negb].
    destruct (newS3Traverser name w) as [[bucket | err] w1]; [| reflexivity].
    destruct (traverseBucket bucket _ filters w1) as [[err |] w2];
      [reflexivity | now apply IH].
  - now apply IH.
Qed.

(** X20 (s3ServiceTraverser.traverse): with an empty bucket pattern
    filepath.Match is never consulted: the traversal is the same whatever
    Match would answer, so every listed bucket is traversed. *)
Theorem traverse_without_pattern_ignores_Match
        (Match1 Match2 : string -> string -> bool * option error)
        (processor : objectProcessor World error storedObject)
        (filters : list objectFilter) (w : World) :
  service Match1 EmptyString processor filters w
  = service Match2 EmptyString processor filters w.
Proof.
  unfold traverse. destruct (ListBuckets w) as [[bucketInfo | err] w1]; [| reflexivity].
  revert w1. induction bucketInfo as [| name rest IH]; intros w1; [reflexivity |].
  cbn [traverseBuckets]. unfold checkPattern. cbn.
  destruct (newS3Traverser name w1) as [[bucket | err] w2]; [| reflexivity].
  destruct (traverseBucket bucket _ filters w2) as [[err |] w3];
    [reflexivity | apply IH].
Qed.

(** X21 (s3ServiceTraverser.traverse): the caller's processor only ever
    receives objects whose containerName has been set to the name of a
    listed bucket: two processors that agree on all such objects give the
    same traversal, whatever they do on other objects. *)
Theorem traverse_hands_over_objects_with_their_bucket
        (Match : string -> string -> bool * option error)
        (bucketPattern : string)
        (processor1 processor2 : objectProcessor World error storedObject)
        (filters : list objectFilter) (bucketInfo : list string) (w : World) :
  (forall name object w',
      In name bucketInfo ->
      processor1 (withContainerName object name) w'
      = processor2 (withContainerName object name) w') ->
  loop Match bucketPattern processor1 filters bucketInfo w
  = loop Match bucketPattern processor2 filters bucketInfo w.
Proof.
  revert w. induction bucketInfo as [| name rest IH]; intros w Hagree; [reflexivity |].
  assert (Hrest : forall n object w',
             In n rest ->
             processor1 (withContainerName object n) w'
             = processor2 (withContainerName object n) w')
    by (intros n object w' Hn; apply Hagree; now right).
  assert (Hmid : middlemanProcessor World error storedObject withContainerName
                                    processor1 name
                 = middlemanProcessor World error storedObject withContainerName
                                      processor2 name).
  { apply functional_extensionality. intros object.
    apply functional_extensionality. intros w'.
    unfold middlemanProcessor. apply Hagree. now left. }
  cbn [traverseBuckets]. rewrite Hmid.
  destruct (checkPattern error Match bucketPattern name); [| now apply IH | reflexivity].
  destruct (newS3Traverser name w) as [[bucket | err] w1]; [| reflexivity].
  destruct (traverseBucket bucket _ filters w1) as [[err |] w2];
    [reflexivity | now apply IH].
Qed.

End S3ServiceTraverserFacts.

Section S3ServiceTraverserRuns.

Import S3ServiceTraverser.

Lemma traverseBuckets_with_pattern_filters_witness :
  traverseBuckets _ _ _ demoWithContainerName _ _ demoMatch demoNewS3Traverser
                  demoTraverseBucket "y" demoProcessor [] ["x"; "locked"; "y"]%string []
  = traverseBuckets _ _ _ demoWithContainerName _ _ demoMatch demoNewS3Traverser
                    demoTraverseBucket "" demoProcessor []
                    (List.filter (fun name => fst (demoMatch "y" name))
                                 ["x"; "locked"; "y"]%string) [].
Proof.
  apply traverseBuckets_with_pattern_filters.
  - discriminate.
  - intros name [<- | [<- | [<- | []]]]; reflexivity.
Defined.

Lemma traverse_hands_over_objects_with_their_bucket_witness :
  traverseBuckets _ _ _ demoWithContainerName _ _ demoMatch demoNewS3Traverser
                  demoTraverseBucket "" demoProcessor [] ["x"; "y"]%string []
  = traverseBuckets _ _ _ demoWithContainerName _ _ demoMatch demoNewS3Traverser
                    demoTraverseBucket "" demoStrictProcessor [] ["x"; "y"]%string [].
Proof.
  apply traverse_hands_over_objects_with_their_bucket.
  intros name object w' [<- | [<- | []]]; reflexivity.
Defined.

End S3ServiceTraverserRuns.
